(** * TorchTime: a model of the campaign scheduler's state logic

    The development embeds the pure and state-changing parts of
    [src/app.js] (level lookup, voting, finalisation, session listing,
    XP awards, ability-score increases, state loading, dice rolling) and
    proves the properties the specification states about them.  The
    repository also holds an earlier variant of the same program
    ([src/unnamed/part_000]); its level lookup, vote handler, XP award
    and ability-score prompt are the same text, and its finalise
    handler, which differs, is embedded in [Module Earlier].

    Conventions of the embedding:
    - a JavaScript number that the program only ever uses as an integer
      (XP, level, hit points, ability scores, indices) is a [Z]; where
      the source can meet [undefined] or [NaN] the value is an
      [option Z] and [None] stands for both.  The numbers of the code
      are doubles: they hold every integer of absolute value at most
      2^53 exactly, and [parseInt], [+], [-] and [*] are exact on
      results in that range, which is where the [Z] of the embedding
      is the number of the code.  A property that depends on the size
      of a typed number carries that range as a hypothesis
      ([safeInteger], [exactRoll], [exactAward]);
    - a JavaScript string is a [string]; [null] and [undefined] strings
      are [None] of [option string];
    - an array is a [list]; an array with holes or [null] slots is a
      [list (option _)];
    - a mutated object is threaded explicitly: every operation returns
      the updated object;
    - what the browser supplies (stored text, network answers, prompt
      answers, random numbers, fresh identifiers, the clock) is an
      argument of the operation that consumes it. *)

From Stdlib Require Import ZArith Lia Ascii String.
From stdpp Require Import base tactics option list list_numbers strings pretty sorting.

Local Open Scope Z_scope.

(** ** JavaScript primitives used by the program *)

(** [x >= t] for a possibly undefined [x]: any comparison with
    [undefined] (which converts to [NaN]) is false. *)
Definition js_ge (x : option Z) (t : Z) : bool :=
  match x with
  | Some v => bool_decide (t ≤ v)
  | None => false
  end.

(** ** Level lookup *)

(** The XP progression table of [getLevelFromXp]. *)
Definition thresholds : list Z :=
  [0; 300; 900; 2700; 6500; 14000; 23000; 34000; 48000; 64000;
   85000; 100000; 120000; 140000; 165000; 195000; 225000;
   265000; 305000; 355000].

(** The [for] loop of [getLevelFromXp]: [scanThresholds xp n] runs the
    iterations [i = n - 1] down to [i = 0] and yields the value of the
    first [return] it meets, if any.  Reading past the table gives
    [undefined], against which the comparison fails. *)
Fixpoint scanThresholds (xp : option Z) (n : nat) : option Z :=
  match n with
  | O => None
  | S i =>
      match thresholds !! i with
      | Some t => if js_ge xp t then Some (Z.of_nat i + 1)
                  else scanThresholds xp i
      | None => scanThresholds xp i
      end
  end.

Definition getLevelFromXp (xp : option Z) : Z :=
  match scanThresholds xp (length thresholds) with
  | Some lvl => lvl
  | None => 1
  end.

(** ** Data model

    The persisted state document and the records it holds.  Field names
    follow the source; a prefix is added where two records share a key. *)

Record User := mkUser {
  user_id : string;
  username : string;
  password : string;
}.

Record Campaign := mkCampaign {
  camp_id : string;
  camp_name : string;
  ownerId : option string;
}.

(** One time-slot option of a proposal, as typed into the form. *)
Record SlotOption := mkSlotOption {
  date : string;
  start : string;
  slot_end : string;
  slot_location : option string;
}.

(** The three vote arrays of one option. *)
Record Votes := mkVotes {
  yes : list (option string);
  maybe : list (option string);
  no : list (option string);
}.

Inductive VoteType := Yes | Maybe | No.

Record Proposal := mkProposal {
  prop_id : string;
  prop_campaignId : string;
  createdBy : option string;
  finalized : bool;
  finalChoiceIndex : option nat;
  options : list SlotOption;
  votes : list (option Votes);
}.

(** An entry of [state.sessions].  [datetime] is the stored text of the
    start time. *)
Record Session := mkSession {
  sess_id : string;
  sess_campaignId : string;
  datetime : string;
  sess_end : option string;
  location : option string;
}.

Inductive Ability := STR | DEX | CON | INT | WIS | CHA.

Record AbilityScores := mkAbilityScores {
  str : Z; dex : Z; con : Z; int : Z; wis : Z; cha : Z;
}.

Record Character := mkCharacter {
  char_id : string;
  char_campaignId : option string;
  char_name : string;
  classIndex : option string;
  level : Z;
  xp : Z;
  abilityScores : AbilityScores;
  hp : Z;
  hitDie : option Z;
  features : option (list string);
}.

Inductive Crit := CritSuccess | CritFailure.

Record RollEntry := mkRollEntry {
  roll_id : string;
  timestamp : Z;
  roll_userId : string;
  userName : string;
  expression : string;
  label : string;
  result : Z;
  details : string;
  crit : option Crit;
  roll_campaignId : option string;
}.

(** The state document.  [rolls] is optional because one path of
    [loadState] builds a state without that key. *)
Record State := mkState {
  users : list User;
  campaigns : list Campaign;
  sessions : list Session;
  proposals : list Proposal;
  characters : list Character;
  rolls : option (list RollEntry);
  currentUserId : option string;
  currentCampaignId : option string;
}.

#[global] Instance VoteType_eq_dec : EqDecision VoteType.
Proof. solve_decision. Defined.
#[global] Instance Ability_eq_dec : EqDecision Ability.
Proof. solve_decision. Defined.
#[global] Instance Crit_eq_dec : EqDecision Crit.
Proof. solve_decision. Defined.

(** ** Voting *)

Definition emptyVotes : Votes := mkVotes [] [] [].

(** [v[vt]] and [v[vt] = l] on a vote object. *)
Definition bucket (vt : VoteType) (v : Votes) : list (option string) :=
  match vt with Yes => yes v | Maybe => maybe v | No => no v end.

Definition set_bucket (vt : VoteType) (l : list (option string)) (v : Votes) : Votes :=
  match vt with
  | Yes => mkVotes l (maybe v) (no v)
  | Maybe => mkVotes (yes v) l (no v)
  | No => mkVotes (yes v) (maybe v) l
  end.

(** [Array.prototype.indexOf]: the position of the first element
    strictly equal to [x]; [None] stands for the result [-1]. *)
Fixpoint indexOf {A} `{EqDecision A} (x : A) (l : list A) : option nat :=
  match l with
  | [] => None
  | y :: r => if decide (y = x) then Some O else S <$> indexOf x r
  end.

(** [idx = a.indexOf(x); if (idx >= 0) a.splice(idx, 1)]. *)
Definition spliceOut {A} `{EqDecision A} (x : A) (l : list A) : list A :=
  match indexOf x l with
  | Some idx => delete idx l
  | None => l
  end.

(** [a[i] = x] on an array: assignment past the end grows the array and
    leaves holes in between. *)
Definition js_array_set {A} (i : nat) (x : A) (l : list (option A)) : list (option A) :=
  if decide (i < length l)%nat then <[i := Some x]> l
  else l ++ replicate (i - length l) None ++ [Some x].

(** One turn of the [forEach] over the three vote types. *)
Definition clearVote (userId : option string) (v : Votes) (vt : VoteType) : Votes :=
  set_bucket vt (spliceOut userId (bucket vt v)) v.

(** [handleVote(proposal, optionIndex, voteType, state)]; the result is
    the proposal object after the call.  [saveState] writes the state
    to storage and changes nothing in memory. *)
Definition handleVote (proposal : Proposal) (optionIndex : nat)
    (voteType : VoteType) (state : State) : Proposal :=
  let userId := currentUserId state in
  let current :=
    match votes proposal !! optionIndex with
    | Some (Some v) => v
    | _ => emptyVotes
    end in
  let cleared := foldl (clearVote userId) current [Yes; Maybe; No] in
  let voted := set_bucket voteType (bucket voteType cleared ++ [userId]) cleared in
  mkProposal (prop_id proposal) (prop_campaignId proposal) (createdBy proposal)
    (finalized proposal) (finalChoiceIndex proposal) (options proposal)
    (js_array_set optionIndex voted (votes proposal)).

(** The proposal object is shared with [state.proposals]: a change made
    through a handler is a change of the state.  [updateProposal k f]
    applies [f] to the proposal stored at position [k].  The page only
    builds handlers for proposals and options it displays; for a
    position that holds no proposal the state is left as it is. *)
Definition updateProposal (k : nat) (f : Proposal → Proposal) (state : State) : State :=
  mkState (users state) (campaigns state) (sessions state)
    (alter f k (proposals state)) (characters state) (rolls state)
    (currentUserId state) (currentCampaignId state).

(** The click handler of a vote button of proposal [k], option [idx]. *)
Definition voteClick (k idx : nat) (vt : VoteType) (state : State) : State :=
  updateProposal k (fun p => handleVote p idx vt state) state.

(** ** Finalisation *)

(** [finalBtn.onclick] of [src/app.js] for option [idx]: the proposal
    after the click. *)
Definition finalizeProposal (idx : nat) (proposal : Proposal) : Proposal :=
  mkProposal (prop_id proposal) (prop_campaignId proposal) (createdBy proposal)
    true (Some idx) (options proposal) (votes proposal).

(** The same handler on the state: proposal [k], option [idx]. *)
Definition finalizeClick (k idx : nat) (state : State) : State :=
  updateProposal k (finalizeProposal idx) state.

(** The earlier variant of the handler ([src/unnamed/part_000]) also
    builds a session from the option and pushes it to [state.sessions].
    [freshId] is the value [uuid()] returns at the click.  The handler
    exists only for an option of a stored proposal.

    The code keeps the start time as the [Date] object
    [new Date(date + 'T' + start)]; the session of the model keeps the
    text that [Date] is built from, so that [new Date(sess.datetime)]
    reads the same [Date] as in the code.  This is the state in memory
    after the click.  Once the state is saved the [Date] is written as
    a UTC instant, and how that text reads after a reload is not
    modelled. *)
Module Earlier.

Definition finalizeClick (freshId : string) (k idx : nat) (state : State) : State :=
  match proposals state !! k with
  | Some proposal =>
      match options proposal !! idx with
      | Some opt =>
          let sessObj :=
            mkSession freshId (prop_campaignId proposal)
              (date opt ++ "T" ++ start opt)%string
              (Some (slot_end opt)) (slot_location opt) in
          mkState (users state) (campaigns state) (sessions state ++ [sessObj])
            (alter (finalizeProposal idx) k (proposals state))
            (characters state) (rolls state)
            (currentUserId state) (currentCampaignId state)
      | None => state
      end
  | None => state
  end.

End Earlier.

(** Whether [renderCampaignDetail], drawing the page of [campaign],
    builds the Finalize button of option [idx] of proposal [k] (both
    variants): the proposal is one of the campaign and not finalised,
    the option exists and the campaign belongs to the current user. *)
Definition finalizeOffered (campaign : Campaign) (k idx : nat) (state : State) : bool :=
  match proposals state !! k with
  | Some p =>
      bool_decide (prop_campaignId p = camp_id campaign) && negb (finalized p) &&
      bool_decide (idx < length (options p))%nat &&
      bool_decide (ownerId campaign = currentUserId state)
  | None => false
  end.

(** ** String primitives

    A character of a [string] is read as one code unit; the model
    covers the strings whose code units are below 256. *)

Local Open Scope char_scope.

(** The white space of [\s], of [String.prototype.trim] and of the
    prefix [parseInt] skips, among the code units below 256. *)
Definition is_ws (c : ascii) : bool :=
  let n := nat_of_ascii c in
  ((9 <=? n) && (n <=? 13) || (n =? 32) || (n =? 160))%nat.

Definition is_digit (c : ascii) : bool :=
  let n := nat_of_ascii c in ((48 <=? n) && (n <=? 57))%nat.

Definition digit_value (c : ascii) : Z := Z.of_nat (nat_of_ascii c) - 48.

(** [toLowerCase] on one code unit: the letters A-Z and the upper-case
    letters of the Latin-1 block move up by 32. *)
Definition lower_char (c : ascii) : ascii :=
  let n := nat_of_ascii c in
  if ((65 <=? n) && (n <=? 90) ||
      (192 <=? n) && (n <=? 222) && negb (n =? 215))%nat
  then ascii_of_nat (n + 32) else c.

(** Case folding of an [/i] pattern against an ASCII pattern character:
    only a-z are folded, a code unit above 127 never folds into ASCII. *)
Definition fold_char (c : ascii) : ascii :=
  let n := nat_of_ascii c in
  if ((97 <=? n) && (n <=? 122))%nat then ascii_of_nat (n - 32) else c.

Local Close Scope char_scope.
Local Open Scope string_scope.

Fixpoint toLowerCase (s : string) : string :=
  match s with
  | EmptyString => EmptyString
  | String c r => String (lower_char c) (toLowerCase r)
  end.

Fixpoint trimStart (s : string) : string :=
  match s with
  | String c r => if is_ws c then trimStart r else s
  | EmptyString => EmptyString
  end.

Definition trim (s : string) : string :=
  String.rev (trimStart (String.rev (trimStart s))).

(** [s.replace(/\s+/g, '')]. *)
Fixpoint removeWhitespace (s : string) : string :=
  match s with
  | EmptyString => EmptyString
  | String c r => if is_ws c then removeWhitespace r else String c (removeWhitespace r)
  end.

(** [s.split(/[,\s]+/)]: the pieces between maximal runs of separators;
    a separator at either end leaves an empty piece there.  [cur] holds
    the piece being read, reversed; [insep] tells that the previous
    character was a separator. *)
Definition is_sep (c : ascii) : bool := bool_decide (c = ","%char) || is_ws c.

Fixpoint splitGo (cur : string) (insep : bool) (s : string) : list string :=
  match s with
  | EmptyString => [String.rev cur]
  | String c r =>
      if is_sep c then
        if insep then splitGo cur true r
        else String.rev cur :: splitGo EmptyString true r
      else splitGo (String c cur) false r
  end.

Definition splitSeparators (s : string) : list string := splitGo EmptyString false s.

(** [re.test(s)] for a case-insensitive pattern of plain ASCII
    characters: does [s] contain the pattern, up to case? *)
Fixpoint startsWithFolded (pat s : string) : bool :=
  match pat, s with
  | EmptyString, _ => true
  | String _ _, EmptyString => false
  | String p pat', String c s' =>
      bool_decide (fold_char p = fold_char c) && startsWithFolded pat' s'
  end.

Fixpoint testFolded (pat s : string) : bool :=
  startsWithFolded pat s ||
  match s with
  | EmptyString => false
  | String _ r => testFolded pat r
  end.

(** [/ability score/i.test(f)]. *)
Definition isAbilityScoreFeature (f : string) : bool := testFolded "ability score" f.

(** The maximal prefix of decimal digits, and what follows it. *)
Fixpoint spanDigits (s : string) : string * string :=
  match s with
  | String c r =>
      if is_digit c then let '(ds, rest) := spanDigits r in (String c ds, rest)
      else (EmptyString, s)
  | EmptyString => (EmptyString, EmptyString)
  end.

Fixpoint digitsValue (acc : Z) (s : string) : Z :=
  match s with
  | EmptyString => acc
  | String c r => digitsValue (10 * acc + digit_value c) r
  end.

(** [parseInt(s, 10)]: leading white space, an optional sign, then the
    longest run of digits; [None] is [NaN].  The result is the integer
    the digits denote, which is the number of the code when it is at
    most 2^53 ([safeInteger]); above, the code rounds it to a double. *)
Definition parseInt (s : string) : option Z :=
  let t := trimStart s in
  let '(sign, body) :=
    match t with
    | String "-" r => (-1, r)
    | String "+" r => (1, r)
    | _ => (1, t)
    end in
  match spanDigits body with
  | (EmptyString, _) => None
  | (ds, _) => Some (sign * digitsValue 0 ds)
  end.

(** ** A set that remembers insertion order ([Set], [Array.from]) *)

Definition setAdd (s : list string) (x : string) : list string :=
  if bool_decide (x ∈ s) then s else s ++ [x].

Definition newSet (l : list string) : list string := foldl setAdd [] l.

(** ** Ability score increase *)

Definition abilityOfCode (code : string) : option Ability :=
  if bool_decide (code = "str") then Some STR
  else if bool_decide (code = "dex") then Some DEX
  else if bool_decide (code = "con") then Some CON
  else if bool_decide (code = "int") then Some INT
  else if bool_decide (code = "wis") then Some WIS
  else if bool_decide (code = "cha") then Some CHA
  else None.

Definition score (a : Ability) (s : AbilityScores) : Z :=
  match a with
  | STR => str s | DEX => dex s | CON => con s
  | INT => int s | WIS => wis s | CHA => cha s
  end.

(** [scores[a] += n]. *)
Definition addScore (a : Ability) (n : Z) (s : AbilityScores) : AbilityScores :=
  match a with
  | STR => mkAbilityScores (str s + n) (dex s) (con s) (int s) (wis s) (cha s)
  | DEX => mkAbilityScores (str s) (dex s + n) (con s) (int s) (wis s) (cha s)
  | CON => mkAbilityScores (str s) (dex s) (con s + n) (int s) (wis s) (cha s)
  | INT => mkAbilityScores (str s) (dex s) (con s) (int s + n) (wis s) (cha s)
  | WIS => mkAbilityScores (str s) (dex s) (con s) (int s) (wis s + n) (cha s)
  | CHA => mkAbilityScores (str s) (dex s) (con s) (int s) (wis s) (cha s + n)
  end.

(** The [parts] array: split, trim and lower-case every piece, keep the
    six valid codes.  A kept piece is represented by its ability. *)
Definition abilityParts (input : string) : list Ability :=
  omap (fun p => abilityOfCode (toLowerCase (trim p))) (splitSeparators input).

Definition setAbilityScores (s : AbilityScores) (ch : Character) : Character :=
  mkCharacter (char_id ch) (char_campaignId ch) (char_name ch) (classIndex ch)
    (level ch) (xp ch) s (hp ch) (hitDie ch) (features ch).

(** [promptAbilityScoreIncrease(ch)]; [answer] is what [prompt]
    returned ([None] when the dialog was cancelled). *)
Definition promptAbilityScoreIncrease (answer : option string) (ch : Character) : Character :=
  match answer with
  | None => ch
  | Some EmptyString => ch
  | Some input =>
      match abilityParts input with
      | [] => ch
      | [a] => setAbilityScores (addScore a 2 (abilityScores ch)) ch
      | a :: b :: _ =>
          setAbilityScores (addScore b 1 (addScore a 1 (abilityScores ch))) ch
      end
  end.

(** ** Awarding experience *)

Local Close Scope string_scope.

(** [ch.hitDie || 8]: a missing, null or zero hit die counts as 8. *)
Definition hitDieOrDefault (ch : Character) : Z :=
  match hitDie ch with
  | Some d => if bool_decide (d = 0) then 8 else d
  | None => 8
  end.

(** [Math.floor((ch.abilityScores.con - 10) / 2)]. *)
Definition conModifier (ch : Character) : Z := (con (abilityScores ch) - 10) `div` 2.

(** A string used as a condition: empty and missing are false. *)
Definition truthy (s : option string) : option string :=
  match s with
  | Some EmptyString => None
  | _ => s
  end.

Definition setHp (h : Z) (ch : Character) : Character :=
  mkCharacter (char_id ch) (char_campaignId ch) (char_name ch) (classIndex ch)
    (level ch) (xp ch) (abilityScores ch) h (hitDie ch) (features ch).

Definition setFeatures (f : list string) (ch : Character) : Character :=
  mkCharacter (char_id ch) (char_campaignId ch) (char_name ch) (classIndex ch)
    (level ch) (xp ch) (abilityScores ch) (hp ch) (hitDie ch) (Some f).

Definition setXp (x : Z) (ch : Character) : Character :=
  mkCharacter (char_id ch) (char_campaignId ch) (char_name ch) (classIndex ch)
    (level ch) x (abilityScores ch) (hp ch) (hitDie ch) (features ch).

Definition setLevel (l : Z) (ch : Character) : Character :=
  mkCharacter (char_id ch) (char_campaignId ch) (char_name ch) (classIndex ch)
    l (xp ch) (abilityScores ch) (hp ch) (hitDie ch) (features ch).

(** [existing = new Set(ch.features || []); feats.forEach(f =>
    existing.add(f)); Array.from(existing)]. *)
Definition mergeFeatures (old : option (list string)) (feats : list string) : list string :=
  foldl setAdd (newSet (default [] old)) feats.

Section Award.

(** What [fetchLevelFeatures(classIndex, lvl)] resolves to. *)
Variable fetchLevelFeatures : string → Z → list string.
(** The answer given to the ability-score prompt raised while level
    [lvl] is applied. *)
Variable asiAnswer : Z → option string.

(** The body of the [for] loop of [xpBtn.onclick] at level [lvl]. *)
Definition applyLevel (lvl : Z) (ch : Character) : Character :=
  let ch1 := setHp (hp ch + (hitDieOrDefault ch + conModifier ch)) ch in
  match truthy (classIndex ch1) with
  | Some ci =>
      let feats := fetchLevelFeatures ci lvl in
      let ch2 := setFeatures (mergeFeatures (features ch1) feats) ch1 in
      if existsb isAbilityScoreFeature feats
      then promptAbilityScoreIncrease (asiAnswer lvl) ch2
      else ch2
  | None => ch1
  end.

(** [for (let lvl = from; ...; lvl++)] run for [n] more turns. *)
Fixpoint levelLoop (n : nat) (lvl : Z) (ch : Character) : Character :=
  match n with
  | O => ch
  | S n' => levelLoop n' (lvl + 1) (applyLevel lvl ch)
  end.

(** [xpBtn.onclick] (the two handlers, on the campaign page and on
    the character sheet, have the same body); [xpStr] is the answer
    to the XP prompt.  The sum [ch.xp + xp] is the one of the code
    when the award is exact ([exactAward]). *)
Definition awardXp (xpStr : option string) (ch : Character) : Character :=
  match parseInt (default "null"%string xpStr) with
  | None => ch
  | Some amount =>
      if bool_decide (amount ≤ 0) then ch
      else
        let ch1 := setXp (xp ch + amount) ch in
        let newLevel := getLevelFromXp (Some (xp ch1)) in
        if bool_decide (level ch1 < newLevel)
        then setLevel newLevel
               (levelLoop (Z.to_nat (newLevel - level ch1)) (level ch1 + 1) ch1)
        else ch1
  end.

End Award.

(** ** Loading the state *)

(** What [JSON.parse] yields for a stored document: the keys the
    upgrade code of [loadState] tests are optional ([None] when the key
    is missing or not an array). *)
Record StoredDoc := mkStoredDoc {
  doc_users : list User;
  doc_campaigns : list Campaign;
  doc_sessions : list Session;
  doc_proposals : option (list Proposal);
  doc_characters : option (list Character);
  doc_rolls : option (list RollEntry);
  doc_currentUserId : option string;
  doc_currentCampaignId : option string;
}.

(** The literal returned when nothing is stored. *)
Definition freshState : State := mkState [] [] [] [] [] (Some []) None None.

(** The literal returned from the [catch] block: it has no [rolls] key. *)
Definition fallbackState : State := mkState [] [] [] [] [] None None None.

Section Load.

(** [JSON.parse(raw)] followed by the first property access on the
    result: [None] when the text is not JSON or is the JSON [null]
    (either way control reaches the [catch] block).  A text that
    parses is taken to be a document as [saveState] writes it, an
    object with the users, campaigns and sessions; other JSON values,
    which the code returns as parsed, are not covered. *)
Variable JSON_parse : string → option StoredDoc.

(** [loadState()]; [raw] is [localStorage.getItem('torchtimeData')]. *)
Definition loadState (raw : option string) : State :=
  match truthy raw with
  | None => freshState
  | Some text =>
      match JSON_parse text with
      | Some parsed =>
          mkState (doc_users parsed) (doc_campaigns parsed) (doc_sessions parsed)
            (default [] (doc_proposals parsed))
            (default [] (doc_characters parsed))
            (Some (default [] (doc_rolls parsed)))
            (doc_currentUserId parsed) (doc_currentCampaignId parsed)
      | None => fallbackState
      end
  end.

End Load.

(** ** Dice *)

(** A call either returns or ends in an uncaught [TypeError]. *)
Inductive Outcome (A : Type) :=
  | Returned (a : A)
  | Threw.
Arguments Returned {A} a.
Arguments Threw {A}.

Inductive Term :=
  | DiceTerm (count size sign : Z)
  | ModTerm (modifier : Z).

(** An optional leading [+] or [-]. *)
Definition spanSign (s : string) : string * string :=
  match s with
  | String "+"%char r => ("+"%string, r)
  | String "-"%char r => ("-"%string, r)
  | _ => (EmptyString, s)
  end.

(** The first alternative of the token pattern, [[+-]?\d*d\d+], tried
    at the start of [s]: the token and the rest of the text. *)
Definition matchDice (s : string) : option (string * string) :=
  let '(sg, s1) := spanSign s in
  let '(n, s2) := spanDigits s1 in
  match s2 with
  | String "d"%char s3 =>
      match spanDigits s3 with
      | (EmptyString, _) => None
      | (m, s4) => Some ((sg ++ n ++ "d" ++ m)%string, s4)
      end
  | _ => None
  end.

(** The second alternative, [[+-]?\d+]. *)
Definition matchNumber (s : string) : option (string * string) :=
  let '(sg, s1) := spanSign s in
  match spanDigits s1 with
  | (EmptyString, _) => None
  | (n, s2) => Some ((sg ++ n)%string, s2)
  end.

Definition matchToken (s : string) : option (string * string) :=
  match matchDice s with
  | Some r => Some r
  | None => matchNumber s
  end.

(** [cleaned.match(/.../g)]: the successive matches from left to right;
    where the pattern does not match the scan moves on by one
    character.  Every step uses up a character, so [fuel] the length of
    the text is enough. *)
Fixpoint scanTokens (fuel : nat) (s : string) : list string :=
  match fuel with
  | O => []
  | S fuel' =>
      match s with
      | EmptyString => []
      | String _ r =>
          match matchToken s with
          | Some (tok, rest) => tok :: scanTokens fuel' rest
          | None => scanTokens fuel' r
          end
      end
  end.

(** [tok.split('d')]. *)
Fixpoint splitOnD (cur : string) (s : string) : list string :=
  match s with
  | EmptyString => [String.rev cur]
  | String c r =>
      if bool_decide (c = "d"%char) then String.rev cur :: splitOnD EmptyString r
      else splitOnD (String c cur) r
  end.

(** The callback of [tokens.map]. *)
Definition termOfToken (tok : string) : Term :=
  let '(sign, tok) :=
    match tok with
    | String "-"%char r => (-1, r)
    | String "+"%char r => (1, r)
    | _ => (1, tok)
    end in
  let parts := splitOnD EmptyString tok in
  match parts with
  | _ :: _ :: _ =>
      let count :=
        match parts !! 0%nat with
        | Some EmptyString => Some 1
        | Some p => parseInt p
        | None => None
        end in
      let size := parts !! 1%nat ≫= parseInt in
      DiceTerm (default 1 count) (default 6 size) sign
  | _ => ModTerm (default 0 (parseInt tok) * sign)
  end.

Definition parseDiceExpression (expr : string) : list Term :=
  let cleaned := removeWhitespace expr in
  termOfToken <$> scanTokens (String.length cleaned) cleaned.

(** What [rollDice] returns. *)
Record RollResult := mkRollResult {
  total : Z;
  roll_details : string;
  roll_crit : option Crit;
}.

(** The running values of [rollDice]: how many random numbers were
    drawn, [total], [crit] and [detailParts]. *)
Record Rolling := mkRolling {
  drawn : nat;
  sum : Z;
  flag : option Crit;
  detailParts : list string;
}.

(** [results.join(',')]. *)
Fixpoint joinComma (l : list Z) : string :=
  match l with
  | [] => EmptyString
  | [x] => pretty x
  | x :: r => (pretty x ++ "," ++ joinComma r)%string
  end.

Section Roll.

(** [random k size] is [Math.floor(Math.random() * size)] at the
    [k]-th call of [Math.random] (counted from 0). *)
Variable random : nat → Z → Z.

(** One turn of the inner [for] loop of a dice term. *)
Definition rollOne (count size sign : Z) (acc : Rolling * list Z) : Rolling * list Z :=
  let '(st, results) := acc in
  let roll := random (drawn st) size + 1 in
  let crit' :=
    if bool_decide (size = 20) && bool_decide (count = 1) then
      if bool_decide (roll = 20) then Some CritSuccess
      else if bool_decide (roll = 1) then Some CritFailure
      else flag st
    else flag st in
  (mkRolling (S (drawn st)) (sum st + roll * sign) crit' (detailParts st),
   results ++ [roll]).

(** The callback of [terms.forEach].  The loop makes [count] turns and
    the running total is the one of the code when the roll is exact
    ([exactRoll]). *)
Definition rollTerm (st : Rolling) (term : Term) : Rolling :=
  match term with
  | DiceTerm count size sign =>
      let '(st', results) :=
        Nat.iter (Z.to_nat count) (rollOne count size sign) (st, []) in
      let prefix := if bool_decide (sign = -1) then "-"%string else EmptyString in
      let shown :=
        match results with
        | [] => "undefined"%string
        | [x] => pretty x
        | _ => ("[" ++ joinComma results ++ "]")%string
        end in
      mkRolling (drawn st') (sum st') (flag st')
        (detailParts st' ++ [(prefix ++ shown)%string])
  | ModTerm m =>
      mkRolling (drawn st) (sum st + m) (flag st)
        (detailParts st ++
           [if bool_decide (0 ≤ m) then ("+" ++ pretty m)%string else pretty m])
  end.

Definition rollTerms (terms : list Term) : Rolling :=
  foldl rollTerm (mkRolling 0 0 None []) terms.

(** [state.rolls.push(entry)] and the trimming that follows. *)
Definition logRoll (entry : RollEntry) (log : list RollEntry) : list RollEntry :=
  let pushed := log ++ [entry] in
  if bool_decide (500 < length pushed)%nat
  then drop (length pushed - 500) pushed
  else pushed.

(** [rollDice(expr, label, state)].  [freshId] and [now] are the
    values of [uuid()] and [Date.now()] for the log entry.  The
    result pairs the returned object with the state after the call. *)
Definition rollDice (freshId : string) (now : Z) (expr : string) (label : string)
    (state : option State) : Outcome (RollResult * option State) :=
  let st := rollTerms (parseDiceExpression expr) in
  let res := mkRollResult (sum st) (String.concat EmptyString (detailParts st)) (flag st) in
  match state with
  | Some s =>
      match truthy (currentUserId s) with
      | Some uid =>
          let user := List.find (fun u => bool_decide (user_id u = uid)) (users s) in
          let entry :=
            mkRollEntry freshId now uid
              (match user with Some u => username u | None => "Unknown"%string end)
              expr
              (match label with EmptyString => expr | _ => label end)
              (total res) (roll_details res) (roll_crit res)
              (truthy (currentCampaignId s)) in
          match rolls s with
          | Some log =>
              Returned
                (res,
                 Some (mkState (users s) (campaigns s) (sessions s) (proposals s)
                         (characters s) (Some (logRoll entry log))
                         (currentUserId s) (currentCampaignId s)))
          | None => Threw
          end
      | None => Returned (res, state)
      end
  | None => Returned (res, state)
  end.

End Roll.

(** ** Listing the scheduled sessions of a campaign *)

(** The local-time fields of a valid [Date]. *)
Record LocalTime := mkLocalTime {
  fullYear : Z;
  month : Z;
  dayOfMonth : Z;
  hours : Z;
  minutes : Z;
  seconds : Z;
  milliseconds : Z;
}.

(** An element of the [scheduledSessions] array.  [listed_datetime] is
    the [Date] that [new Date(entry.datetime)] gives, [None] for an
    invalid date; [fromProposal] tells a converted proposal from an
    entry of [state.sessions]. *)
Record Listed := mkListed {
  listed_id : string;
  listed_datetime : option LocalTime;
  listed_campaignId : string;
  listed_end : option string;
  listed_location : option string;
  fromProposal : bool;
}.

(** The five getter comparisons of the duplicate test.  A getter of an
    invalid date is [NaN], which equals nothing. *)
Definition sameMinute (a b : option LocalTime) : bool :=
  match a, b with
  | Some x, Some y =>
      bool_decide (fullYear x = fullYear y) &&
      bool_decide (month x = month y) &&
      bool_decide (dayOfMonth x = dayOfMonth y) &&
      bool_decide (hours x = hours y) &&
      bool_decide (minutes x = minutes y)
  | _, _ => false
  end.

(** [x || ''] on a location. *)
Definition locationText (l : option string) : string := default EmptyString l.

(** The callback of [scheduledSessions.some]. *)
Definition duplicates (existing s : Listed) : bool :=
  sameMinute (listed_datetime existing) (listed_datetime s) &&
  bool_decide (locationText (listed_location existing) = locationText (listed_location s)).

Section Listing.

(** [new Date(text)] read through the local-time getters. *)
Variable newDate : string → option LocalTime.

(** The session object built from a finalised proposal; reading a
    field of a missing option throws. *)
Definition listProposal (campaignId : string) (p : Proposal) : Outcome Listed :=
  match finalChoiceIndex p ≫= (fun i => options p !! i) with
  | Some opt =>
      Returned
        (mkListed (prop_id p) (newDate (date opt ++ "T" ++ start opt)%string)
           campaignId (Some (slot_end opt)) (slot_location opt) true)
  | None => Threw
  end.

Fixpoint listProposals (campaignId : string) (ps : list Proposal) : Outcome (list Listed) :=
  match ps with
  | [] => Returned []
  | p :: ps' =>
      match listProposal campaignId p with
      | Returned e =>
          match listProposals campaignId ps' with
          | Returned es => Returned (e :: es)
          | Threw => Threw
          end
      | Threw => Threw
      end
  end.

Definition listSession (s : Session) : Listed :=
  mkListed (sess_id s) (newDate (datetime s)) (sess_campaignId s)
    (sess_end s) (location s) false.

(** The callback of the [forEach] over the campaign's sessions. *)
Definition includeSession (scheduled : list Listed) (s : Session) : list Listed :=
  if existsb (fun existing => duplicates existing (listSession s)) scheduled
  then scheduled
  else scheduled ++ [listSession s].

(** The [scheduledSessions] array of [renderCampaignDetail] as it
    stands before it is sorted for display. *)
Definition scheduledSessions (state : State) (campaignId : string) : Outcome (list Listed) :=
  let finalisedProposals :=
    filter (fun p => prop_campaignId p = campaignId ∧ finalized p = true)
      (proposals state) in
  match listProposals campaignId finalisedProposals with
  | Returned fromProposals =>
      Returned
        (foldl includeSession fromProposals
           (filter (fun s => sess_campaignId s = campaignId) (sessions state)))
  | Threw => Threw
  end.

End Listing.

(** ** Vocabulary of the properties *)

(** The vote object of option [i] as the page reads it:
    [proposal.votes[idx] || { yes: [], maybe: [], no: [] }]. *)
Definition votesOf (p : Proposal) (i : nat) : Votes :=
  match votes p !! i with
  | Some (Some v) => v
  | _ => emptyVotes
  end.

(** How many times [x] occurs in an array. *)
Fixpoint occurrences {A} `{EqDecision A} (x : A) (l : list A) : nat :=
  match l with
  | [] => O
  | y :: r => ((if decide (y = x) then 1 else 0) + occurrences x r)%nat
  end.

(** Every id occurs at most once among the three arrays of an option:
    no array lists a user twice and no two arrays list the same user. *)
Definition votedOnce (v : Votes) : Prop :=
  ∀ u, (occurrences u (yes v) + occurrences u (maybe v) + occurrences u (no v) ≤ 1)%nat.

(** A user appears in at most one bucket. *)
Definition exclusive (v : Votes) : Prop :=
  ∀ u b1 b2, u ∈ bucket b1 v → u ∈ bucket b2 v → b1 = b2.

(** The outcome of a proposal: its finalised flag and chosen option. *)
Definition outcome (p : Proposal) : bool * option nat := (finalized p, finalChoiceIndex p).



(** How many random numbers a term draws. *)
Definition drawsOf (term : Term) : nat :=
  match term with
  | DiceTerm count _ _ => Z.to_nat count
  | ModTerm _ => O
  end.

(** What one d20 says about a critical: 20 is a success, 1 a failure. *)
Definition critOfRoll (roll : Z) : option Crit :=
  if bool_decide (roll = 20) then Some CritSuccess
  else if bool_decide (roll = 1) then Some CritFailure
  else None.

(** A later verdict replaces an earlier one. *)
Definition laterCrit (acc : option Crit) (c : option Crit) : option Crit :=
  match c with
  | Some _ => c
  | None => acc
  end.

(** The rolls of the terms that are exactly one d20, in order, when the
    terms are rolled starting with the [k]-th random number. *)
Fixpoint singleD20Rolls (random : nat → Z → Z) (k : nat) (terms : list Term) : list Z :=
  match terms with
  | [] => []
  | DiceTerm count size _ :: rest =>
      (if bool_decide (size = 20) && bool_decide (count = 1)
       then [random k 20 + 1] else []) ++
      singleD20Rolls random (k + Z.to_nat count) rest
  | ModTerm _ :: rest => singleD20Rolls random k rest
  end.

(** No session entry of the list duplicates an entry listed before it. *)
Definition sessionsDeduplicated (l : list Listed) : Prop :=
  ∀ i j a b, (i < j)%nat → l !! i = Some a → l !! j = Some b →
    fromProposal b = false → duplicates a b = false.

(** The converted proposals come before the session entries. *)
Definition proposalsFirst (l : list Listed) : Prop :=
  ∀ i j a b, (i < j)%nat → l !! i = Some a → l !! j = Some b →
    fromProposal b = true → fromProposal a = true.

(** ** Sample data *)

Definition sampleOptions : list SlotOption :=
  [mkSlotOption "2025-03-01" "18:00" "22:00" (Some "Library");
   mkSlotOption "2025-03-02" "19:30" "23:00" None]%string.

(** A proposal in which u2 voted yes and u1 voted no on option 0. *)
Definition sampleProposal : Proposal :=
  mkProposal "p1" "c1" (Some "dm") false None sampleOptions
    [Some (mkVotes [Some "u2"] [] [Some "u1"]); Some emptyVotes]%string.

(** A state in which u1 is logged in. *)
Definition sampleState : State :=
  mkState [mkUser "u1" "ann" "pw"; mkUser "dm" "dee" "pw"]
    [mkCampaign "c1" "Mines" (Some "dm")] [] [sampleProposal] [] (Some [])
    (Some "u1") (Some "c1")%string.

(** A fighter at level 1 with 0 XP, constitution 13 and a d10 hit die. *)
Definition sampleCharacter : Character :=
  mkCharacter "ch1" (Some "c1") "Brom" (Some "fighter") 1 0
    (mkAbilityScores 15 14 13 12 10 8) 11 (Some 10)
    (Some ["Darkvision"; "Second Wind"])%string.

(** Answers of the reference service for the sample class. *)
Definition sampleFeatures (classIndex : string) (lvl : Z) : list string :=
  if bool_decide (lvl = 2) then ["Action Surge"]%string
  else if bool_decide (lvl = 3) then ["Martial Archetype"; "Second Wind"]%string
  else if bool_decide (lvl = 4) then ["Ability Score Improvement"]%string
  else [].

(** The player answers every ability-score prompt with "con". *)
Definition sampleAnswers (lvl : Z) : option string := Some "con"%string.

(** A log entry, and a state of u1 whose log is full. *)
Definition sampleEntry : RollEntry :=
  mkRollEntry "r0" 0 "u1" "ann" "1d6" "1d6" 4 "4" None (Some "c1")%string.

Definition fullLogState : State :=
  mkState (users sampleState) (campaigns sampleState) [] [sampleProposal] []
    (Some (replicate 500 sampleEntry)) (Some "u1") (Some "c1")%string.

(** A random source whose first die shows its highest face and whose
    later dice show 1. *)
Definition highThenLow (k : nat) (size : Z) : Z :=
  match k with
  | O => size - 1
  | S _ => 0
  end.

(** A stand-in for [new Date] on texts of the form
    [YYYY-MM-DDTHH:MM]; every other text is an invalid date. *)
Definition sampleNewDate (text : string) : option LocalTime :=
  let '(y, r1) := spanDigits text in
  match r1 with
  | String "-"%char r2 =>
      let '(m, r3) := spanDigits r2 in
      match r3 with
      | String "-"%char r4 =>
          let '(d, r5) := spanDigits r4 in
          match r5 with
          | String "T"%char r6 =>
              let '(h, r7) := spanDigits r6 in
              match r7 with
              | String ":"%char r8 =>
                  let '(mi, r9) := spanDigits r8 in
                  match y, r9 with
                  | String _ _, EmptyString =>
                      Some (mkLocalTime (digitsValue 0 y) (digitsValue 0 m - 1)
                              (digitsValue 0 d) (digitsValue 0 h) (digitsValue 0 mi) 0 0)
                  | _, _ => None
                  end
              | _ => None
              end
          | _ => None
          end
      | _ => None
      end
  | _ => None
  end.

(** Two proposals of campaign c1, both finalised on the same slot. *)
Definition twiceFinalisedState : State :=
  mkState (users sampleState) (campaigns sampleState) []
    [mkProposal "pA" "c1" (Some "dm") true (Some 0%nat) sampleOptions [];
     mkProposal "pB" "c1" (Some "dm") true (Some 0%nat) sampleOptions []]%string
    [] (Some []) (Some "dm") (Some "c1")%string.

(** One finalised proposal and three stored sessions: the first repeats
    the proposal's slot, the third repeats the second. *)
Definition listingState : State :=
  mkState (users sampleState) (campaigns sampleState)
    [mkSession "s1" "c1" "2025-03-01T18:00" None (Some "Library");
     mkSession "s2" "c1" "2025-03-08T18:00" None None;
     mkSession "s3" "c1" "2025-03-08T18:00" None (Some "")]%string
    [mkProposal "pA" "c1" (Some "dm") true (Some 0%nat) sampleOptions []]%string
    [] (Some []) (Some "dm") (Some "c1")%string.

(** * Further operations of the program *)

(** ** Accounts *)

(** [a.toLowerCase() === b.toLowerCase()]. *)
Definition sameName (a b : string) : bool :=
  bool_decide (toLowerCase a = toLowerCase b).

(** [state.currentUserId = id]. *)
Definition setCurrentUser (id : option string) (state : State) : State :=
  mkState (users state) (campaigns state) (sessions state) (proposals state)
    (characters state) (rolls state) id (currentCampaignId state).

(** The [find] of the login handler: the first user whose name equals
    the trimmed input up to case and whose password is the input. *)
Definition findLogin (typedName typedPassword : string) (state : State) : option User :=
  List.find
    (λ u, sameName (username u) (trim typedName) &&
          bool_decide (password u = typedPassword))
    (users state).

(** [loginForm.onsubmit]: a failed login alerts and changes nothing. *)
Definition loginSubmit (typedName typedPassword : string) (state : State) : State :=
  match findLogin typedName typedPassword state with
  | Some user => setCurrentUser (Some (user_id user)) state
  | None => state
  end.

(** [registerForm.onsubmit]; [freshId] is the value of [uuid()]. *)
Definition registerSubmit (freshId typedName typedPassword : string) (state : State) : State :=
  let name := trim typedName in
  match name, typedPassword with
  | EmptyString, _ => state
  | _, EmptyString => state
  | _, _ =>
      if existsb (λ u, sameName (username u) name) (users state) then state
      else
        mkState (users state ++ [mkUser freshId name typedPassword])
          (campaigns state) (sessions state) (proposals state)
          (characters state) (rolls state) (Some freshId) (currentCampaignId state)
  end.

(** The state change of [handleLogout]. *)
Definition handleLogout (state : State) : State := setCurrentUser None state.

(** ** Routing *)

Inductive View :=
  | ViewLogin | ViewRegister | ViewDashboard | ViewCreateCampaign | ViewCampaign
  | ViewSession | ViewTimer | ViewItems | ViewDice | ViewCharacterCreator
  | ViewCharacters | ViewCharacterSheet | ViewProposeSession.

(** [hash.split('?')[0]]: the text before the first question mark. *)
Fixpoint beforeQuery (hash : string) : string :=
  match hash with
  | EmptyString => EmptyString
  | String c r => if bool_decide (c = "?"%char) then EmptyString else String c (beforeQuery r)
  end.

(** The [switch] of [render] for a logged-in user; [None] is the
    [#logout] case, which renders nothing itself. *)
Definition viewOfRoute (route : string) : option View :=
  if bool_decide (route = "#create-campaign"%string) then Some ViewCreateCampaign
  else if bool_decide (route = "#campaign"%string) then Some ViewCampaign
  else if bool_decide (route = "#session"%string) then Some ViewSession
  else if bool_decide (route = "#timer"%string) then Some ViewTimer
  else if bool_decide (route = "#items"%string) then Some ViewItems
  else if bool_decide (route = "#dice"%string) then Some ViewDice
  else if bool_decide (route = "#character-creator"%string) then Some ViewCharacterCreator
  else if bool_decide (route = "#characters"%string) then Some ViewCharacters
  else if bool_decide (route = "#character-sheet"%string) then Some ViewCharacterSheet
  else if bool_decide (route = "#logout"%string) then None
  else if bool_decide (route = "#propose-session"%string) then Some ViewProposeSession
  else Some ViewDashboard.

(** The two views open to a visitor who is not logged in. *)
Definition guestView (route : string) : View :=
  if bool_decide (route = "#register"%string) then ViewRegister else ViewLogin.

(** [hash.split('?')[1]]: the text between the first and the second
    question mark; [None] ([undefined]) when the hash has none. *)
Fixpoint afterQuery (hash : string) : option string :=
  match hash with
  | EmptyString => None
  | String c r =>
      if bool_decide (c = "?"%char) then Some (beforeQuery r) else afterQuery r
  end.

(** [state.currentCampaignId = id]. *)
Definition setCurrentCampaign (id : option string) (state : State) : State :=
  mkState (users state) (campaigns state) (sessions state) (proposals state)
    (characters state) (rolls state) (currentUserId state) id.

Section Routing.

(** [new URLSearchParams(query).get('id')]. *)
Variable idParam : string → option string.

(** What [renderCampaignDetail] does to the state: the campaign whose
    id the query names, when it is stored, becomes the current
    campaign.  Without a query the parameters are empty and the id is
    [null]. *)
Definition openCampaign (hash : string) (state : State) : State :=
  let id := afterQuery hash ≫= idParam in
  match List.find (λ c, bool_decide (Some (camp_id c) = id)) (campaigns state) with
  | Some campaign => setCurrentCampaign (Some (camp_id campaign)) state
  | None => state
  end.

(** [render(state)] with [hash] the value of [window.location.hash]:
    the view that is drawn and the state afterwards.  Of the views only
    the campaign page writes to the state.  The logout route clears the
    user, sets the hash to [#login] and renders again. *)
Definition render (hash : string) (state : State) : View * State :=
  let fullHash := match hash with EmptyString => "#dashboard"%string | _ => hash end in
  let route := beforeQuery fullHash in
  match truthy (currentUserId state) with
  | None => (guestView route, state)
  | Some _ =>
      match viewOfRoute route with
      | Some ViewCampaign => (ViewCampaign, openCampaign hash state)
      | Some view => (view, state)
      | None => (guestView (beforeQuery "#login"), handleLogout state)
      end
  end.

End Routing.

(** ** Proposing a session *)

(** The four inputs of one row of the proposal form. *)
Record SlotRow := mkSlotRow {
  row_date : string;
  row_start : string;
  row_end : string;
  row_location : string;
}.

(** The callback of [rows.forEach]: a row with a date, a start and an
    end becomes an option, its location trimmed. *)
Definition optionOfRow (row : SlotRow) : option SlotOption :=
  match row_date row, row_start row, row_end row with
  | String _ _, String _ _, String _ _ =>
      Some (mkSlotOption (row_date row) (row_start row) (row_end row)
              (Some (trim (row_location row))))
  | _, _, _ => None
  end.

(** The proposal literal built by the form. *)
Definition newProposal (freshId campId : string) (creator : option string)
    (opts : list SlotOption) : Proposal :=
  mkProposal freshId campId creator false None opts ((λ _, Some emptyVotes) <$> opts).

(** [proposalForm.onsubmit] for campaign [campId]. *)
Definition submitProposal (freshId campId : string) (rows : list SlotRow)
    (state : State) : State :=
  match omap optionOfRow rows with
  | [] => state
  | opts =>
      mkState (users state) (campaigns state) (sessions state)
        (proposals state ++ [newProposal freshId campId (currentUserId state) opts])
        (characters state) (rolls state) (currentUserId state) (currentCampaignId state)
  end.

(** A run of votes on one proposal: who votes, on which option, for
    what.  Each vote is a call of [handleVote] in a state whose current
    user is the voter. *)
Definition castVotes (state : State) (p : Proposal)
    (ballots : list (option string * nat * VoteType)) : Proposal :=
  foldl (λ q '(voter, idx, vt), handleVote q idx vt (setCurrentUser voter state)) p ballots.

(** The proposals the program builds: the literal of the proposal
    form, changed by votes and by finalisation, which are the only
    writes to a proposal. *)
Inductive built : Proposal → Prop :=
  | built_form freshId campId creator opts :
      built (newProposal freshId campId creator opts)
  | built_vote p idx vt st : built p → built (handleVote p idx vt st)
  | built_finalize p idx : built p → built (finalizeProposal idx p).

(** ** Ability checks from the character sheet *)





(** ** The roll log *)

(** [Array.prototype.sort] with a consistent comparator: the sort is
    stable, so its result is the one of this insertion sort, which puts
    an element before the first later element it does not come after. *)
Fixpoint insertBy {A} (cmp : A → A → Z) (x : A) (l : list A) : list A :=
  match l with
  | [] => [x]
  | y :: r => if bool_decide (cmp x y ≤ 0) then x :: l else y :: insertBy cmp x r
  end.

Definition sortBy {A} (cmp : A → A → Z) (l : list A) : list A :=
  foldr (insertBy cmp) [] l.

(** The comparator [(a, b) => b.timestamp - a.timestamp]. *)
Definition newestFirst (a b : RollEntry) : Z := timestamp b - timestamp a.

(** The entries [renderRollLog(container, state, campaignId)] shows, in
    order.  Reading [state.rolls] of a state without that array throws. *)
Definition renderRollLog (state : State) (campaignId : option string)
    : Outcome (list RollEntry) :=
  match rolls state with
  | None => Threw
  | Some logs =>
      let chosen :=
        match truthy campaignId with
        | Some c => filter (λ r, roll_campaignId r = Some c) logs
        | None =>
            match truthy (currentUserId state) with
            | Some u => filter (λ r, roll_userId r = u) logs
            | None => logs
            end
        end in
      Returned (take 20 (sortBy newestFirst chosen))
  end.

(** ** Vocabulary of the dice properties *)

Fixpoint allDigits (s : string) : bool :=
  match s with
  | EmptyString => true
  | String c r => is_digit c && allDigits r
  end.

(** The least and the greatest amount a well-formed term can add to the
    total: a die shows between 1 and its size (1 for a die of size 0). *)
Definition lowest (t : Term) : Z :=
  match t with
  | DiceTerm count size sign =>
      if bool_decide (sign = -1) then - (count * Z.max 1 size) else count
  | ModTerm m => m
  end.

Definition highest (t : Term) : Z :=
  match t with
  | DiceTerm count size sign =>
      if bool_decide (sign = -1) then - count else count * Z.max 1 size
  | ModTerm m => m
  end.

Definition sumZ (l : list Z) : Z := foldr Z.add 0 l.

(** A term as the parser builds it. *)
Definition wellFormed (t : Term) : Prop :=
  match t with
  | DiceTerm count size sign => 0 ≤ count ∧ 0 ≤ size ∧ (sign = 1 ∨ sign = -1)
  | ModTerm _ => True
  end.

(** A state of u1 with three logged rolls, two of them in campaign c1. *)
Definition loggedState : State :=
  mkState (users sampleState) (campaigns sampleState) [] [] []
    (Some [mkRollEntry "r1" 5 "u1" "ann" "1d6" "1d6" 4 "4" None (Some "c1");
           mkRollEntry "r2" 9 "u1" "ann" "1d6" "1d6" 2 "2" None (Some "c2");
           mkRollEntry "r3" 7 "dm" "dee" "1d6" "1d6" 6 "6" None (Some "c1")]%string)
    (Some "u1") (Some "c1")%string.

(** ** The session list of the earlier variant *)

(** The [scheduledSessions] array of [src/unnamed/part_000] as it
    stands before it is sorted for display: the converted proposals
    followed by every stored session of the campaign, with no
    duplicate test. *)
Definition earlierScheduledSessions (newDate : string → option LocalTime)
    (state : State) (campaignId : string) : Outcome (list Listed) :=
  match listProposals newDate campaignId
          (filter (λ p, prop_campaignId p = campaignId ∧ finalized p = true)
             (proposals state)) with
  | Returned fromProposals =>
      Returned
        (fromProposals ++
         (listSession newDate <$>
            filter (λ s, sess_campaignId s = campaignId) (sessions state)))
  | Threw => Threw
  end.

(** ** Racial ability bonuses in the character creator *)

(** An element of [data.ability_bonuses]: the name of the ability score
    and the bonus. *)
Record AbilityBonus := mkAbilityBonus {
  bonus_name : string;
  bonus : Z;
}.

(** The standard array the creator starts from. *)
Definition standardArray : AbilityScores := mkAbilityScores 15 14 13 12 10 8.

(** [b.ability_score.name.substring(0, 3).toLowerCase()], when it is
    one of the six keys. *)
Definition bonusKey (b : AbilityBonus) : option Ability :=
  abilityOfCode (toLowerCase (substring 0 3 (bonus_name b))).

(** The callback of [data.ability_bonuses.forEach]: [base[key] +=
    b.bonus].  Another key makes a new property and leaves the six
    scores. *)
Definition applyBonus (base : AbilityScores) (b : AbilityBonus) : AbilityScores :=
  match bonusKey b with
  | Some a => addScore a (bonus b) base
  | None => base
  end.

(** [charDraft.abilityScores] after a race was chosen. *)
Definition raceScores (bonuses : list AbilityBonus) : AbilityScores :=
  foldl applyBonus standardArray bonuses.

(** ** The first variant of the program

    The second document of [src/app.js] (from line 1797) is the first
    version of the application: sessions carry proposed times with a
    flat list of voters, and the DM finalises the best time. *)
Module Original.

Record Account := mkAccount {
  account_id : string;
  account_name : string;
  account_password : string;
  role : string;
}.

Record ProposedTime := mkProposedTime {
  time_id : string;
  time_datetime : string;
  time_votes : list string;
  time_createdBy : string;
}.

Record PlannedSession := mkPlannedSession {
  planned_id : string;
  planned_campaignId : string;
  planned_name : string;
  proposedTimes : list ProposedTime;
  finalTimeId : option string;
}.

(** A campaign; its notes and messages, which the operations below
    leave alone, are not modelled. *)
Record Group := mkGroup {
  group_id : string;
  group_name : string;
  description : string;
  dmId : string;
  playerIds : list string;
}.

Record Store := mkStore {
  accounts : list Account;
  groups : list Group;
  planned : list PlannedSession;
  currentAccount : option string;
}.

(** The delete button of the dashboard, once confirmed: the campaign
    and its sessions are filtered out. *)
Definition deleteCampaign (id : string) (st : Store) : Store :=
  mkStore (accounts st)
    (filter (λ c, group_id c ≠ id) (groups st))
    (filter (λ s, planned_campaignId s ≠ id) (planned st))
    (currentAccount st).

(** [addPlayerForm.onsubmit] on a campaign: the named user is added
    unless unknown or already a player. *)
Definition addPlayer (typedName : string) (st : Store) (c : Group) : Group :=
  match List.find (λ u, sameName (account_name u) (trim typedName)) (accounts st) with
  | None => c
  | Some newPlayer =>
      if bool_decide (account_id newPlayer ∈ playerIds c) then c
      else mkGroup (group_id c) (group_name c) (description c) (dmId c)
             (playerIds c ++ [account_id newPlayer])
  end.

(** The vote button of a proposed time: the user's id is pushed when
    absent and spliced out when present. *)
Definition toggleVote (userId : string) (t : ProposedTime) : ProposedTime :=
  mkProposedTime (time_id t) (time_datetime t)
    (match indexOf userId (time_votes t) with
     | None => time_votes t ++ [userId]
     | Some index => delete index (time_votes t)
     end)
    (time_createdBy t).

(** The handler finds the time by its id and does nothing when there
    is none; the time object is shared with the session. *)
Fixpoint voteOnTime (userId timeId : string) (times : list ProposedTime) : list ProposedTime :=
  match times with
  | [] => []
  | t :: rest =>
      if bool_decide (time_id t = timeId) then toggleVote userId t :: rest
      else t :: voteOnTime userId timeId rest
  end.

Section Finalize.

(** The time value of [new Date(text)] for the texts a
    [datetime-local] input gives, which are valid dates. *)
Variable timeOf : string → Z.

(** [compareProposedTimes(a, b)]. *)
Definition compareProposedTimes (a b : ProposedTime) : Z :=
  let votesA := Z.of_nat (length (time_votes a)) in
  let votesB := Z.of_nat (length (time_votes b)) in
  if bool_decide (votesA ≠ votesB) then votesB - votesA
  else timeOf (time_datetime a) - timeOf (time_datetime b).

(** [finalizeBtn.onclick]: the proposed times are sorted in place and
    the first one becomes the final time. *)
Definition finalizeBest (s : PlannedSession) : PlannedSession :=
  match proposedTimes s with
  | [] => s
  | _ =>
      let sorted := sortBy compareProposedTimes (proposedTimes s) in
      match sorted with
      | best :: _ =>
          mkPlannedSession (planned_id s) (planned_campaignId s) (planned_name s)
            sorted (Some (time_id best))
      | [] => s
      end
  end.

End Finalize.

(** [text.replace(/</g, '&lt;').replace(/>/g, '&gt;')]. *)
Fixpoint replaceChar (c : ascii) (by_ : string) (s : string) : string :=
  match s with
  | EmptyString => EmptyString
  | String d r =>
      if bool_decide (d = c) then by_ +:+ replaceChar c by_ r
      else String d (replaceChar c by_ r)
  end.

Definition escapeHtml (text : string) : string :=
  replaceChar ">" "&gt;" (replaceChar "<" "&lt;" text).

End Original.

(** The answers of [URLSearchParams] for a query that is the id
    parameter alone. *)
Definition sampleIdParam (query : string) : option string :=
  match query with
  | String "i" (String "d" (String "=" value)) => Some value
  | _ => None
  end.

(** ** Vocabulary of the further properties *)

(** A voter other than [u]. *)
Definition otherThan (u w : option string) : Prop := w ≠ u.

#[global] Instance otherThan_dec (u w : option string) : Decision (otherThan u w).
Proof. unfold otherThan. apply _. Defined.

(** The vote object [handleVote] writes, as a function of the one it
    finds. *)
Definition votedAs (u : option string) (vt : VoteType) (v : Votes) : Votes :=
  let cleared :=
    mkVotes (spliceOut u (yes v)) (spliceOut u (maybe v)) (spliceOut u (no v)) in
  set_bucket vt (bucket vt cleared ++ [u]) cleared.

(** No two users have names that are equal up to case. *)
Definition uniqueNames (l : list User) : Prop :=
  ∀ i j u v, l !! i = Some u → l !! j = Some v →
    sameName (username u) (username v) = true → i = j.

(** [s.includes(c)] for a character [c]. *)
Fixpoint hasChar (c : ascii) (s : string) : bool :=
  match s with
  | EmptyString => false
  | String d r => bool_decide (d = c) || hasChar c r
  end.

(** [/\d/.test(s)]: the text holds a digit. *)
Fixpoint hasDigit (s : string) : bool :=
  match s with
  | EmptyString => false
  | String c r => is_digit c || hasDigit r
  end.

(** The sign a token starts with, as a factor. *)
Definition signValue (sg : string) : Z :=
  match sg with
  | String "-"%char _ => -1
  | _ => 1
  end.

Definition isSign (sg : string) : Prop :=
  sg = EmptyString ∨ sg = "+"%string ∨ sg = "-"%string.

(** The value of the digits before the [d] of a dice token. *)
Definition countValue (n : string) : Z :=
  match n with
  | EmptyString => 1
  | _ => digitsValue 0 n
  end.

(** The two shapes of a token. *)
Definition diceToken (tok : string) : Prop :=
  ∃ sg n m, tok = sg +:+ n +:+ String "d" m ∧ isSign sg ∧
            allDigits n = true ∧ allDigits m = true ∧ m ≠ EmptyString.

Definition numberToken (tok : string) : Prop :=
  ∃ sg n, tok = sg +:+ n ∧ isSign sg ∧ allDigits n = true ∧ n ≠ EmptyString.

(** The integers a double holds exactly, one after the other. *)
Definition safeInteger (z : Z) : Prop := - 2 ^ 53 ≤ z ≤ 2 ^ 53.

(** The most a well-formed term can move the total, in absolute
    value. *)
Definition magnitude (t : Term) : Z :=
  match t with
  | DiceTerm count size _ => count * Z.max 1 size
  | ModTerm m => Z.abs m
  end.

(** The rolls the code computes exactly: no dice term draws more
    numbers than an array holds, and the amounts together stay within
    the exact integers, so that every typed number in use and every
    running total is exact. *)
Definition exactRoll (terms : list Term) : Prop :=
  Forall (λ t, match t with
               | DiceTerm count _ _ => count < 2 ^ 32
               | ModTerm _ => True
               end) terms ∧
  sumZ (magnitude <$> terms) ≤ 2 ^ 53.

(** The awards the code computes exactly: the stored XP, the typed
    amount and their sum are exact integers. *)
Definition exactAward (xpStr : option string) (ch : Character) : Prop :=
  safeInteger (xp ch) ∧
  match parseInt (default "null"%string xpStr) with
  | Some amount => safeInteger amount ∧ safeInteger (xp ch + amount)
  | None => True
  end.

(** Every die of the source shows a face of the die. *)
Definition inRange (random : nat → Z → Z) : Prop :=
  ∀ k size, 0 ≤ size → 0 ≤ random k size ≤ Z.max 0 (size - 1).

(** A source of rolls whose every die shows the middle face. *)
Definition halfRolls (k : nat) (size : Z) : Z := size `div` 2.

(** [a] is at least as new as [b]. *)
Definition notOlder (a b : RollEntry) : Prop := timestamp b ≤ timestamp a.

(** The entries the log view selects: those of the campaign when one
    is given, else those of the current user when there is one, else
    all. *)
Definition inLogView (state : State) (campaignId : option string) (r : RollEntry) : Prop :=
  match truthy campaignId with
  | Some c => roll_campaignId r = Some c
  | None =>
      match truthy (currentUserId state) with
      | Some u => roll_userId r = u
      | None => True
      end
  end.

(** The order [compareProposedTimes] sorts by: more votes first, and
    with as many votes the earlier date first. *)
Definition ranksBefore (timeOf : string → Z) (a b : Original.ProposedTime) : Prop :=
  (length (Original.time_votes b) < length (Original.time_votes a))%nat ∨
  (length (Original.time_votes a) = length (Original.time_votes b) ∧
   timeOf (Original.time_datetime a) ≤ timeOf (Original.time_datetime b)).

(** * Properties *)

(** ** Level lookup *)

Section LevelLookup.

Local Open Scope Z_scope.

(** What the downward scan over the first [n] table entries yields:
    the highest satisfied index plus one, or nothing when no entry
    below [n] is satisfied. *)
Lemma scanThresholds_spec (xp : option Z) (n : nat) :
  match scanThresholds xp n with
  | Some lvl =>
      ∃ i t, (i < n)%nat ∧ thresholds !! i = Some t ∧ js_ge xp t = true ∧
             lvl = Z.of_nat i + 1 ∧
             ∀ j u, (i < j < n)%nat → thresholds !! j = Some u → js_ge xp u = false
  | None =>
      ∀ i t, (i < n)%nat → thresholds !! i = Some t → js_ge xp t = false
  end.
Proof.
  induction n as [|n IH]; simpl.
  - intros i t Hi. lia.
  - destruct (thresholds !! n) as [t|] eqn:Hn.
    + destruct (js_ge xp t) eqn:Hge.
      * exists n, t. repeat split; auto with lia.
      * destruct (scanThresholds xp n) as [lvl|].
        -- destruct IH as (i & u & Hi & Hu & Hsat & Hlvl & Habove).
           exists i, u. repeat split; auto with lia.
           intros j w Hj Hw.
           destruct (decide (j = n)) as [->|Hne]; [congruence|].
           apply (Habove j w); [lia|done].
        -- intros i u Hi Hu.
           destruct (decide (i = n)) as [->|Hne]; [congruence|].
           apply (IH i u); [lia|done].
    + destruct (scanThresholds xp n) as [lvl|].
      * destruct IH as (i & u & Hi & Hu & Hsat & Hlvl & Habove).
        exists i, u. repeat split; auto with lia.
        intros j w Hj Hw.
        destruct (decide (j = n)) as [->|Hne]; [congruence|].
        apply (Habove j w); [lia|done].
      * intros i u Hi Hu.
        destruct (decide (i = n)) as [->|Hne]; [congruence|].
        apply (IH i u); [lia|done].
Qed.

Lemma js_ge_Some (v t : Z) : js_ge (Some v) t = true ↔ t ≤ v.
Proof. simpl. rewrite bool_decide_eq_true. done. Qed.

Lemma js_ge_Some_false (v t : Z) : js_ge (Some v) t = false ↔ v < t.
Proof. simpl. rewrite bool_decide_eq_false. lia. Qed.

Lemma getLevelFromXp_at_least_1 (xp : option Z) : 1 ≤ getLevelFromXp xp.
Proof.
  unfold getLevelFromXp.
  pose proof (scanThresholds_spec xp (length thresholds)) as H.
  destruct (scanThresholds xp (length thresholds)) as [lvl|]; [|lia].
  destruct H as (i & t & _ & _ & _ & -> & _). lia.
Qed.

Lemma getLevelFromXp_reaches (v : Z) (i : nat) (t : Z) :
  thresholds !! i = Some t → t ≤ v → Z.of_nat i + 1 ≤ getLevelFromXp (Some v).
Proof.
  intros Hi Htv. unfold getLevelFromXp.
  pose proof (scanThresholds_spec (Some v) (length thresholds)) as H.
  assert (i < length thresholds)%nat as Hlen by (eapply lookup_lt_Some; eauto).
  destruct (scanThresholds (Some v) (length thresholds)) as [lvl|].
  - destruct H as (k & u & Hk & Hu & Hsat & -> & Habove).
    destruct (decide (i ≤ k)%nat); [lia|].
    assert (js_ge (Some v) t = false) as Hf by (apply (Habove i t); [lia|done]).
    apply js_ge_Some_false in Hf. lia.
  - specialize (H i t Hlen Hi). apply js_ge_Some_false in H. lia.
Qed.

(** C4.  [getLevelFromXp] returns [i + 1] for the highest index [i]
    of the table whose threshold does not exceed the XP value, and 1
    when no threshold is satisfied: for an undefined value and for
    every value below the level-1 threshold.  The table has 20
    ascending entries and starts at 0. *)
Theorem getLevelFromXp_highest_threshold (xp : option Z) :
  (length thresholds = 20%nat ∧ thresholds !! 0%nat = Some 0 ∧
   ∀ i j a b, (i < j)%nat → thresholds !! i = Some a →
              thresholds !! j = Some b → a < b) ∧
  (∀ v i t, xp = Some v → thresholds !! i = Some t → t ≤ v →
     (∀ j u, (i < j)%nat → thresholds !! j = Some u → v < u) →
     getLevelFromXp xp = Z.of_nat i + 1) ∧
  ((∀ i t, thresholds !! i = Some t → js_ge xp t = false) →
     getLevelFromXp xp = 1) ∧
  (xp = None → getLevelFromXp xp = 1) ∧
  (∀ v, xp = Some v → v < 0 → getLevelFromXp xp = 1).
Proof.
  assert (Hnone : (∀ i t, thresholds !! i = Some t → js_ge xp t = false) →
                  getLevelFromXp xp = 1).
  { intros Hall. unfold getLevelFromXp.
    pose proof (scanThresholds_spec xp (length thresholds)) as H.
    destruct (scanThresholds xp (length thresholds)) as [lvl|]; [|done].
    destruct H as (i & t & _ & Hi & Hsat & _ & _).
    rewrite (Hall i t Hi) in Hsat. discriminate. }
  split; [|split; [|split; [|split]]].
  - split; [reflexivity|split; [reflexivity|]].
    intros i j a b Hij Hi Hj.
    assert (j < 20)%nat as Hj20 by (apply lookup_lt_Some in Hj; exact Hj).
    do 20 (destruct j as [|j]; [
      do 20 (destruct i as [|i]; [vm_compute in Hi, Hj; simplify_eq; lia|]); lia |]).
    lia.
  - intros v i t -> Hi Htv Habove. unfold getLevelFromXp.
    pose proof (scanThresholds_spec (Some v) (length thresholds)) as H.
    assert (i < length thresholds)%nat as Hlen by (eapply lookup_lt_Some; eauto).
    destruct (scanThresholds (Some v) (length thresholds)) as [lvl|].
    + destruct H as (k & u & Hk & Hu & Hsat & -> & Hk_above).
      apply js_ge_Some in Hsat.
      destruct (lt_eq_lt_dec i k) as [[Hlt| ->]|Hgt]; [|done|].
      * specialize (Habove k u Hlt Hu). lia.
      * assert (js_ge (Some v) t = false) as Hf by (apply (Hk_above i t); [lia|done]).
        apply js_ge_Some_false in Hf. lia.
    + specialize (H i t Hlen Hi). apply js_ge_Some_false in H. lia.
  - exact Hnone.
  - intros ->. apply Hnone. done.
  - intros v -> Hneg. apply Hnone. intros i t Hi.
    apply js_ge_Some_false.
    assert (i < 20)%nat as Hi20 by (apply lookup_lt_Some in Hi; exact Hi).
    do 20 (destruct i as [|i]; [vm_compute in Hi; simplify_eq; lia|]). lia.
Qed.

(** The theorem at 950 XP (index 2, threshold 900) and at -5 XP. *)
Lemma getLevelFromXp_highest_threshold_witness :
  getLevelFromXp (Some 950) = 3 ∧ getLevelFromXp (Some (-5)) = 1 ∧
  getLevelFromXp None = 1.
Proof.
  split; [|split].
  - apply (proj1 (proj2 (getLevelFromXp_highest_threshold (Some 950))) 950 2%nat 900);
      [reflexivity|reflexivity|lia|].
    intros j u Hj Hu.
    destruct j as [|[|[|j]]]; [lia|lia|lia|].
    assert (2700 ≤ u); [|lia].
    destruct j as [|j]; [vm_compute in Hu; simplify_eq; lia|].
    assert (thresholds !! 3%nat = Some 2700) as H3 by reflexivity.
    pose proof (proj2 (proj2 (proj1 (getLevelFromXp_highest_threshold None)))
                  3%nat (S (S (S (S j)))) 2700 u ltac:(lia) H3 Hu). lia.
  - apply (proj2 (proj2 (proj2 (proj2 (getLevelFromXp_highest_threshold (Some (-5)))))) (-5));
      [reflexivity|lia].
  - apply (proj1 (proj2 (proj2 (proj2 (getLevelFromXp_highest_threshold None)))));
      reflexivity.
Defined.

(** C5.  At or above [thresholds[i]] the level is at least [i + 1],
    and the level never decreases when the XP value grows. *)
Theorem getLevelFromXp_monotone :
  (∀ (i : nat) (t v : Z), thresholds !! i = Some t → t ≤ v →
     Z.of_nat i + 1 ≤ getLevelFromXp (Some v)) ∧
  (∀ x y : Z, x ≤ y → getLevelFromXp (Some x) ≤ getLevelFromXp (Some y)).
Proof.
  split.
  - intros i t v. apply getLevelFromXp_reaches.
  - intros x y Hxy.
    pose proof (scanThresholds_spec (Some x) (length thresholds)) as H.
    unfold getLevelFromXp at 1.
    destruct (scanThresholds (Some x) (length thresholds)) as [lvl|].
    + destruct H as (i & t & _ & Hi & Hsat & -> & _).
      apply js_ge_Some in Hsat.
      apply (getLevelFromXp_reaches y i t Hi). lia.
    + apply getLevelFromXp_at_least_1.
Qed.

(** The theorem at index 4 (threshold 6500) and at 299 ≤ 300. *)
Lemma getLevelFromXp_monotone_witness :
  5 ≤ getLevelFromXp (Some 7000) ∧
  getLevelFromXp (Some 299) ≤ getLevelFromXp (Some 300).
Proof.
  split.
  - apply (proj1 getLevelFromXp_monotone 4%nat 6500 7000); [reflexivity|lia].
  - apply (proj2 getLevelFromXp_monotone 299 300). lia.
Defined.

End LevelLookup.

(** ** Voting *)

Section Voting.

Context {A : Type} `{EqDecision A}.

Lemma occurrences_pos (x : A) (l : list A) : x ∈ l ↔ (0 < occurrences x l)%nat.
Proof.
  induction l as [|y r IH]; simpl.
  - split; [intros Hin; inversion Hin|lia].
  - rewrite elem_of_cons, IH. destruct (decide (y = x)) as [->|Hne].
    + split; [lia|auto].
    + split; [intros [->|Hpos]; [done|lia]|intros Hpos; right; lia].
Qed.

Lemma occurrences_app (x : A) (l1 l2 : list A) :
  occurrences x (l1 ++ l2) = (occurrences x l1 + occurrences x l2)%nat.
Proof. induction l1 as [|y r IH]; simpl; [done|]. rewrite IH. lia. Qed.

(** [spliceOut] takes away exactly the first occurrence. *)
Lemma occurrences_spliceOut (x y : A) (l : list A) :
  occurrences y (spliceOut x l) =
  if decide (x = y) then pred (occurrences y l) else occurrences y l.
Proof.
  unfold spliceOut. induction l as [|z r IH]; simpl.
  - destruct (decide (x = y)); done.
  - destruct (decide (z = x)) as [->|Hzx]; simpl.
    + destruct (decide (x = y)) as [->|Hxy]; simpl; done.
    + destruct (indexOf x r) as [idx|] eqn:Hidx; simpl in *;
        rewrite IH; destruct (decide (x = y)) as [->|Hxy]; try done;
        destruct (decide (z = y)); try done;
        simpl; rewrite <- IH; done.
Qed.

End Voting.

Lemma js_array_set_lookup {A} (i : nat) (x : A) (l : list (option A)) :
  js_array_set i x l !! i = Some (Some x).
Proof.
  unfold js_array_set. destruct (decide (i < length l)%nat) as [Hlt|Hge].
  - apply list_lookup_insert_eq. done.
  - rewrite lookup_app_r by lia.
    rewrite lookup_app_r by (rewrite length_replicate; lia).
    rewrite length_replicate.
    replace (i - length l - (i - length l))%nat with O by lia. done.
Qed.

(** Another slot reads as before, or as a hole where the array grew. *)
Lemma js_array_set_lookup_ne {A} (i j : nat) (x : A) (l : list (option A)) :
  i ≠ j →
  js_array_set i x l !! j = l !! j ∨
  (js_array_set i x l !! j = Some None ∧ l !! j = None).
Proof.
  intros Hne. unfold js_array_set.
  destruct (decide (i < length l)%nat) as [Hlt|Hge].
  - left. apply list_lookup_insert_ne. done.
  - destruct (decide (j < length l)%nat) as [Hj|Hj].
    + left. apply lookup_app_l. done.
    + rewrite lookup_app_r by lia.
      destruct (decide (j < i)%nat) as [Hji|Hji].
      * right. split; [|apply lookup_ge_None; lia].
        rewrite lookup_app_l by (rewrite length_replicate; lia).
        apply lookup_replicate. split; [done|lia].
      * left. rewrite (proj2 (lookup_ge_None l j)) by lia.
        apply lookup_ge_None.
        rewrite length_app, length_replicate. simpl. lia.
Qed.

Lemma clearVote_all (u : option string) (v : Votes) :
  foldl (clearVote u) v [Yes; Maybe; No] =
  mkVotes (spliceOut u (yes v)) (spliceOut u (maybe v)) (spliceOut u (no v)).
Proof. destruct v. reflexivity. Qed.

(** The option voted on after [handleVote]: the user is spliced out of
    each array once and pushed onto the chosen one. *)
Lemma votesOf_handleVote (p : Proposal) (i : nat) (vt : VoteType) (st : State) :
  votesOf (handleVote p i vt st) i =
  let u := currentUserId st in
  let cleared :=
    mkVotes (spliceOut u (yes (votesOf p i))) (spliceOut u (maybe (votesOf p i)))
      (spliceOut u (no (votesOf p i))) in
  set_bucket vt (bucket vt cleared ++ [u]) cleared.
Proof.
  unfold votesOf at 1. unfold handleVote. cbn [votes].
  rewrite js_array_set_lookup, clearVote_all. reflexivity.
Qed.

Lemma votesOf_handleVote_other (p : Proposal) (i j : nat) (vt : VoteType) (st : State) :
  i ≠ j → votesOf (handleVote p i vt st) j = votesOf p j.
Proof.
  intros Hne. unfold votesOf, handleVote. cbn [votes].
  match goal with
  | |- context [js_array_set i ?x (votes p)] =>
      destruct (js_array_set_lookup_ne i j x (votes p) Hne) as [-> | [-> ->]]
  end; done.
Qed.

Lemma votedOnce_exclusive (v : Votes) : votedOnce v → exclusive v.
Proof.
  intros Hv u b1 b2 H1 H2. specialize (Hv u).
  apply occurrences_pos in H1, H2.
  destruct b1, b2; simpl in *; try done; lia.
Qed.

(** One vote on one option.  If the voter's id occurs at most once in
    each of the other two arrays of the option, then after [handleVote]
    it is in the array voted for and in neither of the other two.  The
    invariant that every id occurs at most once among the three arrays
    of an option holds for empty arrays, is kept by every vote, and
    makes the arrays exclusive; the other options are not touched. *)
Lemma handleVote_places_voter (p : Proposal) (i : nat) (vt : VoteType) (st : State) :
  (∀ b, b ≠ vt → (occurrences (currentUserId st) (bucket b (votesOf p i)) ≤ 1)%nat) →
  (currentUserId st ∈ bucket vt (votesOf (handleVote p i vt st) i) ∧
   ∀ b, b ≠ vt → currentUserId st ∉ bucket b (votesOf (handleVote p i vt st) i)) ∧
  (votedOnce (votesOf p i) →
   votedOnce (votesOf (handleVote p i vt st) i) ∧
   exclusive (votesOf (handleVote p i vt st) i)) ∧
  (∀ j, i ≠ j → votesOf (handleVote p i vt st) j = votesOf p j) ∧
  votedOnce emptyVotes.
Proof.
  intros Hother. rewrite votesOf_handleVote. cbv zeta.
  set (u := currentUserId st) in *. set (v := votesOf p i) in *.
  split; [split|split; [|split]].
  - destruct vt; simpl; apply elem_of_app; right; apply list_elem_of_singleton; done.
  - intros b Hb. rewrite occurrences_pos.
    pose proof (Hother b Hb) as Hle.
    destruct vt, b; simpl in *; try done;
      rewrite occurrences_spliceOut; destruct (decide (u = u)); try done; lia.
  - intros Hv.
    assert (votedOnce
              (set_bucket vt
                 (bucket vt (mkVotes (spliceOut u (yes v)) (spliceOut u (maybe v))
                               (spliceOut u (no v))) ++ [u])
                 (mkVotes (spliceOut u (yes v)) (spliceOut u (maybe v))
                    (spliceOut u (no v))))) as Hv'.
    { intros w. specialize (Hv w).
      destruct vt; simpl; rewrite ?occurrences_app, !occurrences_spliceOut; simpl;
        destruct (decide (u = w)); lia. }
    split; [exact Hv'|apply votedOnce_exclusive; exact Hv'].
  - intros j Hj. apply votesOf_handleVote_other. done.
  - intros w. simpl. lia.
Qed.

(** ** Finalisation *)

Lemma finalizeProposal_twice (idx : nat) (p : Proposal) :
  finalizeProposal idx (finalizeProposal idx p) = finalizeProposal idx p.
Proof. reflexivity. Qed.

Lemma handleVote_outcome (p : Proposal) (j : nat) (vt : VoteType) (s : State) :
  outcome (handleVote p j vt s) = outcome p.
Proof. reflexivity. Qed.

Lemma finalizeOffered_finalized (campaign : Campaign) (k idx idx' : nat)
    (ps : list Proposal) (st : State) (p : Proposal) :
  proposals st = alter (finalizeProposal idx) k ps → ps !! k = Some p →
  finalizeOffered campaign k idx' st = false.
Proof.
  intros Hps Hk. unfold finalizeOffered. rewrite Hps, list_lookup_alter_eq, Hk.
  cbn. rewrite andb_false_r. reflexivity.
Qed.

(** C2.  Finalising the same option twice leaves the state exactly as
    finalising it once, the proposal is then finalised with that
    option, and no vote, on any proposal and option, changes the
    finalised flag or the chosen option of any proposal.  After the
    click the page offers no Finalize button for the proposal any more;
    this also holds for the handler of the earlier variant, which
    leaves the proposals as the current handler does, so that handler
    is never run a second time on a proposal. *)
Theorem finalize_idempotent (k idx : nat) (st : State) :
  finalizeClick k idx (finalizeClick k idx st) = finalizeClick k idx st ∧
  (∀ p, proposals st !! k = Some p →
     outcome <$> proposals (finalizeClick k idx st) !! k = Some (true, Some idx)) ∧
  (∀ p j vt s, finalized (handleVote p j vt s) = finalized p ∧
               finalChoiceIndex (handleVote p j vt s) = finalChoiceIndex p) ∧
  (∀ k' j vt s, outcome <$> proposals (voteClick k' j vt s) = outcome <$> proposals s) ∧
  (∀ campaign idx' p, proposals st !! k = Some p →
     finalizeOffered campaign k idx' (finalizeClick k idx st) = false) ∧
  (∀ campaign idx' freshId p opt,
     proposals st !! k = Some p → options p !! idx = Some opt →
     proposals (Earlier.finalizeClick freshId k idx st) =
       proposals (finalizeClick k idx st) ∧
     finalizeOffered campaign k idx' (Earlier.finalizeClick freshId k idx st) = false).
Proof.
  split; [|split; [|split; [|split; [|split]]]].
  - unfold finalizeClick, updateProposal. cbn [proposals users campaigns sessions
      characters rolls currentUserId currentCampaignId].
    rewrite list_alter_alter_eq. f_equal.
  - intros p Hp. unfold finalizeClick, updateProposal. cbn [proposals].
    rewrite list_lookup_alter_eq, Hp. reflexivity.
  - intros p j vt s. split; reflexivity.
  - intros k' j vt s. unfold voteClick, updateProposal. cbn [proposals].
    rewrite (list_fmap_alter outcome (λ p, handleVote p j vt s) id).
    + apply list_alter_id. done.
    + apply Forall_forall. intros x _. apply handleVote_outcome.
  - intros campaign idx' p Hp.
    apply (finalizeOffered_finalized campaign k idx idx' (proposals st) _ p); [reflexivity|exact Hp].
  - intros campaign idx' freshId p opt Hp Hopt.
    assert (proposals (Earlier.finalizeClick freshId k idx st) =
            alter (finalizeProposal idx) k (proposals st)) as Hps.
    { unfold Earlier.finalizeClick. rewrite Hp, Hopt. reflexivity. }
    split; [exact Hps|].
    apply (finalizeOffered_finalized campaign k idx idx' (proposals st) _ p); [exact Hps|exact Hp].
Qed.

(** The theorem for option 1 of [sampleProposal], finalised by its
    owner. *)
Lemma finalize_idempotent_witness :
  finalizeClick 0 1 (finalizeClick 0 1 sampleState) = finalizeClick 0 1 sampleState ∧
  outcome <$> proposals (finalizeClick 0 1 sampleState) !! 0%nat = Some (true, Some 1%nat) ∧
  finalizeOffered (mkCampaign "c1" "Mines" (Some "dm"%string)) 0 1
    (setCurrentUser (Some "dm"%string) sampleState) = true ∧
  finalizeOffered (mkCampaign "c1" "Mines" (Some "dm"%string)) 0 1
    (finalizeClick 0 1 (setCurrentUser (Some "dm"%string) sampleState)) = false.
Proof.
  destruct (finalize_idempotent 0 1 sampleState) as (Htwice & Hout & _).
  split; [exact Htwice|]. split; [apply (Hout sampleProposal); reflexivity|].
  split; [reflexivity|].
  destruct (finalize_idempotent 0 1 (setCurrentUser (Some "dm"%string) sampleState))
    as (_ & _ & _ & _ & Hoff & _).
  apply (Hoff _ _ sampleProposal). reflexivity.
Defined.

(** ** Awarding experience *)






(** The prompt changes the ability scores and nothing else. *)
Lemma promptAbilityScoreIncrease_frame (answer : option string) (ch : Character) :
  ∃ s, promptAbilityScoreIncrease answer ch = setAbilityScores s ch.
Proof.
  unfold promptAbilityScoreIncrease.
  assert (ch = setAbilityScores (abilityScores ch) ch) as Hid by (destruct ch; done).
  destruct answer as [[|c r]|]; try (exists (abilityScores ch); exact Hid).
  destruct (abilityParts (String c r)) as [|a [|b l]]; eauto.
Qed.

Section AwardProperties.

Variable fetchLevelFeatures : string → Z → list string.
Variable asiAnswer : Z → option string.





(** The loop body leaves the class, the hit die, the level and the XP. *)
Lemma applyLevel_frame (lvl : Z) (c : Character) :
  classIndex (applyLevel fetchLevelFeatures asiAnswer lvl c) = classIndex c ∧
  hitDie (applyLevel fetchLevelFeatures asiAnswer lvl c) = hitDie c ∧
  level (applyLevel fetchLevelFeatures asiAnswer lvl c) = level c ∧
  xp (applyLevel fetchLevelFeatures asiAnswer lvl c) = xp c.
Proof.
  unfold applyLevel. cbn [classIndex setHp features].
  destruct (truthy (classIndex c)) as [ci|]; [|done].
  destruct (existsb isAbilityScoreFeature (fetchLevelFeatures ci lvl)); [|done].
  match goal with
  | |- context [promptAbilityScoreIncrease ?a ?x] =>
      destruct (promptAbilityScoreIncrease_frame a x) as [s ->]
  end.
  done.
Qed.





End AwardProperties.


(** ** Ability score increase *)



Lemma score_addScore (a c : Ability) (n : Z) (s : AbilityScores) :
  score c (addScore a n s) = score c s + (if decide (c = a) then n else 0).
Proof. destruct a, c; simpl; lia. Qed.



(** ** Loading the state *)

(** C8, evaluated.  When the stored text does not parse, [loadState]
    returns the literal of its [catch] block.  That literal equals the
    fresh-install state in every collection and in the current user
    but has no [rolls] array, which the fresh-install state has. *)
Theorem loadState_unparsable (JSON_parse : string → option StoredDoc) (text : string) :
  text ≠ EmptyString →
  JSON_parse text = None →
  loadState JSON_parse (Some text) = fallbackState ∧
  loadState JSON_parse None = freshState ∧
  rolls fallbackState = None ∧
  rolls freshState = Some [] ∧
  fallbackState ≠ freshState ∧
  (users fallbackState, campaigns fallbackState, sessions fallbackState,
   proposals fallbackState, characters fallbackState, currentUserId fallbackState) =
  (users freshState, campaigns freshState, sessions freshState,
   proposals freshState, characters freshState, currentUserId freshState).
Proof.
  intros Hne Hparse. repeat split; try reflexivity; try discriminate.
  unfold loadState. destruct text as [|c r]; [done|].
  cbn [truthy]. rewrite Hparse. reflexivity.
Qed.

(** The theorem for the stored text [{] and a parser that rejects it. *)
Lemma loadState_unparsable_witness :
  loadState (λ _, None) (Some "{"%string) = fallbackState ∧
  rolls (loadState (λ _, None) (Some "{"%string)) = None ∧
  rolls (loadState (λ _, None) None) = Some [].
Proof.
  destruct (loadState_unparsable (λ _, None) "{"%string) as (H1 & H2 & H3 & H4 & _).
  - discriminate.
  - reflexivity.
  - rewrite H1, H2. auto.
Defined.

(** ** Dice *)

Section RollProperties.

Variable random : nat → Z → Z.

Lemma logRoll_trim (entry : RollEntry) (log : list RollEntry) :
  (length log ≤ 500)%nat →
  (length (logRoll entry log) ≤ 500)%nat ∧
  logRoll entry log = drop (length (log ++ [entry]) - 500) (log ++ [entry]) ∧
  ((length log < 500)%nat → logRoll entry log = log ++ [entry]) ∧
  ((length log = 500)%nat → logRoll entry log = drop 1 log ++ [entry]) ∧
  last (logRoll entry log) = Some entry.
Proof.
  intros Hlen. unfold logRoll. rewrite length_app. simpl.
  case_bool_decide as Hfull.
  - assert (length log = 500)%nat as H500 by lia.
    replace (length log + 1 - 500)%nat with 1%nat by lia.
    assert (drop 1 (log ++ [entry]) = drop 1 log ++ [entry]) as Hdrop.
    { destruct log; [simpl in H500; lia|reflexivity]. }
    rewrite Hdrop. repeat split.
    + rewrite length_app, length_drop. simpl. lia.
    + intros Hlt. lia.
    + apply last_snoc.
  - replace (length log + 1 - 500)%nat with 0%nat by lia.
    rewrite drop_0. repeat split.
    + rewrite length_app. simpl. lia.
    + intros H500. lia.
    + apply last_snoc.
Qed.

(** C9.  With a logged-in user and a log of at most 500 entries,
    [rollDice] returns, the entry of the roll is the last one of the
    new log, and the new log has at most 500 entries: it is the old log
    with the entry pushed, or, when the old log was full, that list
    without its first (oldest) entry. *)
Theorem rollDice_log_bounded (freshId : string) (now : Z) (expr label : string)
    (s : State) (uid : string) (log : list RollEntry) :
  truthy (currentUserId s) = Some uid →
  rolls s = Some log →
  (length log ≤ 500)%nat →
  ∃ res s' log' entry,
    rollDice random freshId now expr label (Some s) = Returned (res, Some s') ∧
    rolls s' = Some log' ∧
    (length log' ≤ 500)%nat ∧
    log' = drop (length (log ++ [entry]) - 500) (log ++ [entry]) ∧
    ((length log < 500)%nat → log' = log ++ [entry]) ∧
    ((length log = 500)%nat → log' = drop 1 log ++ [entry]) ∧
    last log' = Some entry ∧
    roll_id entry = freshId ∧ roll_userId entry = uid ∧
    result entry = total res ∧ crit entry = roll_crit res.
Proof.
  intros Huid Hrolls Hlen. unfold rollDice. rewrite Huid, Hrolls.
  do 4 eexists. split; [reflexivity|]. cbn [rolls].
  split; [reflexivity|].
  match goal with
  | |- context [logRoll ?e log] =>
      destruct (logRoll_trim e log Hlen) as (H1 & H2 & H3 & H4 & H5)
  end.
  repeat split; try done.
Qed.

End RollProperties.

(** A state without a [rolls] array, such as the one [loadState]
    returns after a parse failure, makes the roll of a logged-in user
    end in a [TypeError] at [state.rolls.push]. *)
Lemma rollDice_without_rolls (random : nat → Z → Z) (freshId : string) (now : Z)
    (expr label : string) (s : State) (uid : string) :
  truthy (currentUserId s) = Some uid →
  rolls s = None →
  rollDice random freshId now expr label (Some s) = Threw.
Proof. intros Huid Hrolls. unfold rollDice. rewrite Huid, Hrolls. reflexivity. Qed.

(** The theorem for a roll of [1d20+3] by u1 on a full log. *)
Lemma rollDice_log_bounded_witness :
  ∃ res s' log' entry,
    rollDice highThenLow "r500" 1700000000000 "1d20+3" "" (Some fullLogState) =
      Returned (res, Some s') ∧
    rolls s' = Some log' ∧
    (length log' ≤ 500)%nat ∧
    log' = drop (length (replicate 500 sampleEntry ++ [entry]) - 500)
             (replicate 500 sampleEntry ++ [entry]) ∧
    ((length (replicate 500 sampleEntry) < 500)%nat →
       log' = replicate 500 sampleEntry ++ [entry]) ∧
    ((length (replicate 500 sampleEntry) = 500)%nat →
       log' = drop 1 (replicate 500 sampleEntry) ++ [entry]) ∧
    last log' = Some entry ∧
    roll_id entry = "r500"%string ∧ roll_userId entry = "u1"%string ∧
    result entry = total res ∧ crit entry = roll_crit res.
Proof.
  apply (rollDice_log_bounded highThenLow "r500" 1700000000000 "1d20+3" ""
           fullLogState "u1" (replicate 500 sampleEntry)).
  - reflexivity.
  - reflexivity.
  - rewrite length_replicate. lia.
Defined.

Section CriticalFlag.

Variable random : nat → Z → Z.

Lemma rollOne_iter_drawn (count size sign : Z) (n : nat) (st : Rolling) (rs : list Z) :
  drawn (Nat.iter n (rollOne random count size sign) (st, rs)).1 = (drawn st + n)%nat.
Proof.
  induction n as [|n IH]; simpl; [lia|].
  destruct (Nat.iter n (rollOne random count size sign) (st, rs)) as [st' rs'].
  simpl in *. lia.
Qed.

(** The inner loop of a term that is not a single d20 leaves the flag. *)
Lemma rollOne_iter_other (count size sign : Z) (n : nat) (st : Rolling) (rs : list Z) :
  bool_decide (size = 20) && bool_decide (count = 1) = false →
  flag (Nat.iter n (rollOne random count size sign) (st, rs)).1 = flag st.
Proof.
  intros Hno. induction n as [|n IH]; simpl; [done|].
  destruct (Nat.iter n (rollOne random count size sign) (st, rs)) as [st' rs'].
  simpl in *. rewrite Hno. simpl. exact IH.
Qed.

Lemma rollTerm_drawn (st : Rolling) (term : Term) :
  drawn (rollTerm random st term) = (drawn st + drawsOf term)%nat.
Proof.
  destruct term as [count size sign|m]; simpl; [|lia].
  pose proof (rollOne_iter_drawn count size sign (Z.to_nat count) st []) as Hd.
  destruct (Nat.iter (Z.to_nat count) (rollOne random count size sign) (st, []))
    as [st' rs]. exact Hd.
Qed.

(** What one term does to the flag. *)
Lemma rollTerm_flag (st : Rolling) (term : Term) :
  flag (rollTerm random st term) =
  foldl laterCrit (flag st) (critOfRoll <$> singleD20Rolls random (drawn st) [term]).
Proof.
  destruct term as [count size sign|m]; [|reflexivity].
  cbn [singleD20Rolls]. rewrite app_nil_r. unfold rollTerm.
  destruct (bool_decide (size = 20) && bool_decide (count = 1)) eqn:Hsingle.
  - apply andb_prop in Hsingle as [Hs Hc].
    apply bool_decide_eq_true in Hs, Hc. subst.
    change (Z.to_nat 1) with 1%nat. cbn.
    unfold critOfRoll, laterCrit.
    repeat case_bool_decide; simpl; try reflexivity; congruence.
  - pose proof (rollOne_iter_other count size sign (Z.to_nat count) st [] Hsingle) as Hf.
    destruct (Nat.iter (Z.to_nat count) (rollOne random count size sign) (st, []))
      as [st' rs].
    exact Hf.
Qed.

Lemma singleD20Rolls_cons (k : nat) (term : Term) (rest : list Term) :
  singleD20Rolls random k (term :: rest) =
  singleD20Rolls random k [term] ++ singleD20Rolls random (k + drawsOf term) rest.
Proof.
  destruct term as [count size sign|m]; simpl.
  - rewrite app_nil_r. reflexivity.
  - rewrite Nat.add_0_r. reflexivity.
Qed.

Lemma foldl_rollTerm_flag (terms : list Term) (st : Rolling) :
  flag (foldl (rollTerm random) st terms) =
  foldl laterCrit (flag st) (critOfRoll <$> singleD20Rolls random (drawn st) terms).
Proof.
  revert st. induction terms as [|t rest IH]; intros st; [reflexivity|].
  rewrite singleD20Rolls_cons, fmap_app, foldl_app. cbn [foldl].
  rewrite IH, rollTerm_flag, rollTerm_drawn. reflexivity.
Qed.

Lemma singleD20Rolls_source (k : nat) (terms : list Term) :
  singleD20Rolls random k terms ≠ [] → ∃ sign, DiceTerm 1 20 sign ∈ terms.
Proof.
  revert k. induction terms as [|t rest IH]; intros k Hne; [done|].
  destruct t as [count size sign|m]; simpl in Hne.
  - destruct (bool_decide (size = 20) && bool_decide (count = 1)) eqn:Hsingle.
    + apply andb_prop in Hsingle as [Hs Hc].
      apply bool_decide_eq_true in Hs, Hc. subst. exists sign. left.
    + destruct (IH _ Hne) as [sg Hsg]. exists sg. right. done.
  - destruct (IH _ Hne) as [sg Hsg]. exists sg. right. done.
Qed.

Lemma foldl_laterCrit_None (l : list (option Crit)) :
  foldl laterCrit None l ≠ None → l ≠ [].
Proof. intros Hne ->. done. Qed.

(** [rollDice] reports the flag of the rolled terms whenever it returns. *)
Lemma rollDice_crit (freshId : string) (now : Z) (expr label : string)
    (state : option State) (res : RollResult) (after : option State) :
  rollDice random freshId now expr label state = Returned (res, after) →
  roll_crit res = flag (rollTerms random (parseDiceExpression expr)).
Proof.
  unfold rollDice. intros Hret.
  destruct state as [s|]; [|by simplify_eq].
  destruct (truthy (currentUserId s)); [|by simplify_eq].
  destruct (rolls s); by simplify_eq.
Qed.

(** [rollDice] returns unless a logged-in user meets a state without
    a [rolls] array. *)
Lemma rollDice_returns (freshId : string) (now : Z) (expr label : string)
    (state : option State) :
  (∀ s, state = Some s → truthy (currentUserId s) = None ∨ is_Some (rolls s)) →
  ∃ res after, rollDice random freshId now expr label state = Returned (res, after).
Proof.
  intros Hok. unfold rollDice. destruct state as [s|]; [|eauto].
  destruct (Hok s eq_refl) as [-> | [log ->]]; [eauto|].
  destruct (truthy (currentUserId s)); eauto.
Qed.

(** C10, as the code has it.  The flag [rollDice] returns is decided
    by the terms that are exactly one d20: it is the verdict of the
    last such die that showed 20 (success) or 1 (failure).  So it is
    non-null only if the parsed expression has a term of count 1 and
    size 20, and with one such term it is a success exactly when that
    die shows 20 and a failure exactly when it shows 1.  The call
    returns whenever the state, if given, has no logged-in user or has
    its [rolls] array. *)
Theorem rollDice_critical_flag (freshId : string) (now : Z) (expr label : string)
    (state : option State) :
  let verdict :=
    foldl laterCrit None
      (critOfRoll <$> singleD20Rolls random 0 (parseDiceExpression expr)) in
  (∀ res after, rollDice random freshId now expr label state = Returned (res, after) →
     roll_crit res = verdict) ∧
  ((∀ s, state = Some s → truthy (currentUserId s) = None ∨ is_Some (rolls s)) →
     ∃ res after, rollDice random freshId now expr label state = Returned (res, after)) ∧
  (verdict ≠ None → ∃ sign, DiceTerm 1 20 sign ∈ parseDiceExpression expr) ∧
  (∀ roll, singleD20Rolls random 0 (parseDiceExpression expr) = [roll] →
     (verdict = Some CritSuccess ↔ roll = 20) ∧
     (verdict = Some CritFailure ↔ roll = 1)).
Proof.
  intros verdict. split; [|split; [|split]].
  - intros res after Hret. apply rollDice_crit in Hret.
    rewrite Hret. unfold rollTerms. rewrite foldl_rollTerm_flag. reflexivity.
  - apply rollDice_returns.
  - subst verdict. intros Hne. apply foldl_laterCrit_None in Hne.
    apply (singleD20Rolls_source 0).
    intros Hnil. apply Hne. rewrite Hnil. reflexivity.
  - intros roll Hone. subst verdict. rewrite Hone. cbn. unfold critOfRoll.
    repeat case_bool_decide; subst; split; intros; try done; try lia.
Qed.

End CriticalFlag.

(** The theorem for [1d20+3] when the die shows 20. *)
Lemma rollDice_critical_flag_witness :
  roll_crit (mkRollResult 23 "20+3" (Some CritSuccess)) =
    foldl laterCrit None
      (critOfRoll <$> singleD20Rolls highThenLow 0 (parseDiceExpression "1d20+3")) ∧
  ∃ sign, DiceTerm 1 20 sign ∈ parseDiceExpression "1d20+3".
Proof.
  destruct (rollDice_critical_flag highThenLow "r1" 0 "1d20+3" "" None)
    as (Hflag & _ & Hsource & _).
  split.
  - apply (Hflag _ None). reflexivity.
  - apply Hsource. discriminate.
Defined.

(** C10 as stated fails for two single d20 terms: in [1d20+1d20] the
    first die shows 20 and the second shows 1, and the flag returned is
    the failure. *)
Lemma rollDice_two_d20_counterexample :
  parseDiceExpression "1d20+1d20" = [DiceTerm 1 20 1; DiceTerm 1 20 1] ∧
  singleD20Rolls highThenLow 0 (parseDiceExpression "1d20+1d20") = [20; 1] ∧
  rollDice highThenLow "r1" 0 "1d20+1d20" "" None =
    Returned (mkRollResult 21 "201" (Some CritFailure), None).
Proof. repeat split; reflexivity. Qed.

(** ** Listing the scheduled sessions *)

Section ListingProperties.

Variable newDate : string → option LocalTime.

Lemma listProposals_entries (campaignId : string) (ps : list Proposal) (es : list Listed) :
  listProposals newDate campaignId ps = Returned es →
  listed_id <$> es = prop_id <$> ps ∧ Forall (λ e, fromProposal e = true) es.
Proof.
  revert es. induction ps as [|p ps IH]; intros es; simpl.
  - intros [= <-]. split; [reflexivity|constructor].
  - unfold listProposal at 1.
    destruct (finalChoiceIndex p ≫= _) as [opt|]; [|discriminate].
    destruct (listProposals newDate campaignId ps) as [es'|]; [|discriminate].
    intros [= <-]. destruct (IH es' eq_refl) as [Hids Hall].
    split; [rewrite !fmap_cons, Hids; reflexivity|].
    constructor; [reflexivity|exact Hall].
Qed.

Lemma includeSession_cases (acc : list Listed) (s : Session) :
  (includeSession newDate acc s = acc ∧
   ∃ e, e ∈ acc ∧ duplicates e (listSession newDate s) = true) ∨
  (includeSession newDate acc s = acc ++ [listSession newDate s] ∧
   ∀ e, e ∈ acc → duplicates e (listSession newDate s) = false).
Proof.
  unfold includeSession.
  destruct (existsb _ acc) eqn:Hex.
  - left. split; [reflexivity|].
    apply existsb_exists in Hex as (e & Hin & Hdup).
    exists e. split; [apply list_elem_of_In; exact Hin|exact Hdup].
  - right. split; [reflexivity|]. intros e He.
    destruct (duplicates e (listSession newDate s)) eqn:Hdup; [|reflexivity].
    assert (existsb (λ existing, duplicates existing (listSession newDate s)) acc = true)
      as Hyes.
    { apply existsb_exists. exists e. split; [apply list_elem_of_In; exact He|exact Hdup]. }
    congruence.
Qed.

(** The loop over the sessions appends to what is already listed a
    sublist of the sessions, in order. *)
Lemma foldl_includeSession_shape (ss : list Session) (acc : list Listed) :
  ∃ kept, foldl (includeSession newDate) acc ss = acc ++ kept ∧
          kept `sublist_of` (listSession newDate <$> ss).
Proof.
  revert acc. induction ss as [|s ss IH]; intros acc; simpl.
  - exists []. rewrite app_nil_r. split; [reflexivity|constructor].
  - destruct (includeSession_cases acc s) as [[-> _]|[-> _]].
    + destruct (IH acc) as (kept & -> & Hsub).
      exists kept. split; [reflexivity|apply sublist_cons; exact Hsub].
    + destruct (IH (acc ++ [listSession newDate s])) as (kept & -> & Hsub).
      exists (listSession newDate s :: kept).
      split; [rewrite <- app_assoc; reflexivity|apply sublist_skip; exact Hsub].
Qed.

Lemma foldl_includeSession_deduplicated (ss : list Session) (acc : list Listed) :
  sessionsDeduplicated acc →
  sessionsDeduplicated (foldl (includeSession newDate) acc ss).
Proof.
  revert acc. induction ss as [|s ss IH]; intros acc Hacc; simpl; [exact Hacc|].
  apply IH.
  destruct (includeSession_cases acc s) as [[-> _]|[-> Hfresh]]; [exact Hacc|].
  intros i j a b Hij Ha Hb Hsess.
  apply lookup_snoc_Some in Hb as [[Hj Hb]|[Hj <-]].
  - rewrite lookup_app_l in Ha by lia. apply (Hacc i j a b); done.
  - rewrite lookup_app_l in Ha by lia.
    apply Hfresh. apply list_elem_of_lookup_2 in Ha. exact Ha.
Qed.

Lemma foldl_includeSession_proposalsFirst (ss : list Session) (acc : list Listed) :
  proposalsFirst acc → proposalsFirst (foldl (includeSession newDate) acc ss).
Proof.
  revert acc. induction ss as [|s ss IH]; intros acc Hacc; simpl; [exact Hacc|].
  apply IH.
  destruct (includeSession_cases acc s) as [[-> _]|[-> _]]; [exact Hacc|].
  intros i j a b Hij Ha Hb Hprop.
  apply lookup_snoc_Some in Hb as [[Hj Hb]|[Hj <-]]; [|discriminate].
  rewrite lookup_app_l in Ha by lia. apply (Hacc i j a b); done.
Qed.

(** Every session looked at is listed or repeats a listed entry. *)
Lemma foldl_includeSession_covers (ss : list Session) (acc : list Listed) :
  (∀ e, e ∈ acc → e ∈ foldl (includeSession newDate) acc ss) ∧
  ∀ s, s ∈ ss →
    ∃ e, e ∈ foldl (includeSession newDate) acc ss ∧
         (e = listSession newDate s ∨ duplicates e (listSession newDate s) = true).
Proof.
  revert acc. induction ss as [|s ss IH]; intros acc; simpl.
  - split; [auto|]. intros s Hs. inversion Hs.
  - destruct (IH (includeSession newDate acc s)) as [Hkeep Hcov].
    assert (∀ e, e ∈ acc → e ∈ includeSession newDate acc s) as Hstep.
    { intros e He. destruct (includeSession_cases acc s) as [[-> _]|[-> _]];
        [exact He|apply elem_of_app; left; exact He]. }
    split; [intros e He; apply Hkeep, Hstep, He|].
    intros s' Hs'. apply elem_of_cons in Hs' as [->|Hs']; [|apply Hcov, Hs'].
    destruct (includeSession_cases acc s) as [[Heq (e & He & Hdup)]|[Heq _]].
    + exists e. split; [apply Hkeep; rewrite Heq; exact He|right; exact Hdup].
    + exists (listSession newDate s). split; [|left; reflexivity].
      apply Hkeep. rewrite Heq. apply elem_of_app. right. left.
Qed.

Lemma duplicates_sym (a b : Listed) : duplicates a b = duplicates b a.
Proof.
  unfold duplicates, sameMinute.
  destruct (listed_datetime a) as [x|], (listed_datetime b) as [y|]; try reflexivity.
  f_equal; [|apply bool_decide_ext; split; congruence].
  repeat (f_equal; [|apply bool_decide_ext; split; congruence]).
  apply bool_decide_ext; split; congruence.
Qed.

(** The conversion of the finalised proposals succeeds when each of
    them has its chosen option. *)
Lemma listProposals_returns (campaignId : string) (ps : list Proposal) :
  (∀ p, p ∈ ps → is_Some (finalChoiceIndex p ≫= (λ i, options p !! i))) →
  ∃ es, listProposals newDate campaignId ps = Returned es.
Proof.
  induction ps as [|p ps IH]; intros Hall; simpl; [eauto|].
  unfold listProposal at 1.
  destruct (Hall p) as [opt ->]; [left|].
  destruct IH as [es ->]; [|eauto].
  intros q Hq. apply Hall. right. exact Hq.
Qed.

(** C6, as the code has it.  When every finalised proposal of the
    campaign has its chosen option, the list is built, and it holds one
    entry for every finalised proposal of the campaign, in order,
    followed by entries of the campaign's stored sessions, in order.  A
    stored session is left out exactly when an entry listed before it
    has the same start minute and location, so every stored session is
    listed or repeats a listed entry, and two listed entries that
    repeat each other are both converted proposals. *)
Theorem scheduledSessions_deduplicated (state : State) (campaignId : string) :
  (∀ p, p ∈ proposals state → prop_campaignId p = campaignId → finalized p = true →
     is_Some (finalChoiceIndex p ≫= (λ i, options p !! i))) →
  ∃ listed,
    scheduledSessions newDate state campaignId = Returned listed ∧
    (∃ fromProposals kept,
       listed = fromProposals ++ kept ∧
       listed_id <$> fromProposals =
         prop_id <$> filter (λ p, prop_campaignId p = campaignId ∧ finalized p = true)
                       (proposals state) ∧
       Forall (λ e, fromProposal e = true) fromProposals ∧
       kept `sublist_of`
         (listSession newDate <$>
            filter (λ s, sess_campaignId s = campaignId) (sessions state))) ∧
    sessionsDeduplicated listed ∧
    (∀ s, s ∈ sessions state → sess_campaignId s = campaignId →
       ∃ e, e ∈ listed ∧
            (e = listSession newDate s ∨ duplicates e (listSession newDate s) = true)) ∧
    (∀ i j a b, i ≠ j → listed !! i = Some a → listed !! j = Some b →
       duplicates a b = true → fromProposal a = true ∧ fromProposal b = true).
Proof.
  intros Hchosen. unfold scheduledSessions.
  destruct (listProposals_returns campaignId
              (filter (λ p, prop_campaignId p = campaignId ∧ finalized p = true)
                 (proposals state))) as [fromProposals Hprops].
  { intros p Hp. apply list_elem_of_filter in Hp as [[Hc Hf] Hin]. auto. }
  rewrite Hprops. eexists. split; [reflexivity|].
  destruct (listProposals_entries _ _ _ Hprops) as [Hids Hall].
  set (ss := filter (λ s, sess_campaignId s = campaignId) (sessions state)) in *.
  assert (sessionsDeduplicated fromProposals) as Hded0.
  { intros i j a b _ _ Hb Hsess.
    apply list_elem_of_lookup_2 in Hb.
    rewrite Forall_forall in Hall. rewrite (Hall b Hb) in Hsess. discriminate. }
  assert (proposalsFirst fromProposals) as Hfirst0.
  { intros i j a b _ Ha _ _.
    apply list_elem_of_lookup_2 in Ha.
    rewrite Forall_forall in Hall. exact (Hall a Ha). }
  pose proof (foldl_includeSession_deduplicated ss _ Hded0) as Hded.
  pose proof (foldl_includeSession_proposalsFirst ss _ Hfirst0) as Hfirst.
  split; [|split; [exact Hded|split]].
  - destruct (foldl_includeSession_shape ss fromProposals) as (kept & Heq & Hsub).
    exists fromProposals, kept. done.
  - intros s Hs Hcamp.
    apply (proj2 (foldl_includeSession_covers ss fromProposals)).
    apply list_elem_of_filter. done.
  - assert (∀ i j a b, (i < j)%nat →
              foldl (includeSession newDate) fromProposals ss !! i = Some a →
              foldl (includeSession newDate) fromProposals ss !! j = Some b →
              duplicates a b = true → fromProposal a = true ∧ fromProposal b = true)
      as Hordered.
    { intros i j a b Hij Ha Hb Hdup.
      assert (fromProposal b = true) as Hpb.
      { destruct (fromProposal b) eqn:Hfb; [reflexivity|].
        rewrite (Hded i j a b Hij Ha Hb Hfb) in Hdup. discriminate. }
      split; [exact (Hfirst i j a b Hij Ha Hb Hpb)|exact Hpb]. }
    intros i j a b Hne Ha Hb Hdup.
    destruct (lt_eq_lt_dec i j) as [[Hlt|Heq]|Hgt]; [eauto|done|].
    rewrite duplicates_sym in Hdup.
    destruct (Hordered j i b a Hgt Hb Ha Hdup). done.
Qed.

End ListingProperties.

(** The theorem for [listingState]: session s1 repeats the proposal
    and s3 repeats s2, so the list is the proposal followed by s2. *)
Lemma scheduledSessions_deduplicated_witness :
  scheduledSessions sampleNewDate listingState "c1" =
    Returned
      [mkListed "pA" (Some (mkLocalTime 2025 2 1 18 0 0 0)) "c1" (Some "22:00")
         (Some "Library") true;
       mkListed "s2" (Some (mkLocalTime 2025 2 8 18 0 0 0)) "c1" None None false]%string ∧
  sessionsDeduplicated
    [mkListed "pA" (Some (mkLocalTime 2025 2 1 18 0 0 0)) "c1" (Some "22:00")
       (Some "Library") true;
     mkListed "s2" (Some (mkLocalTime 2025 2 8 18 0 0 0)) "c1" None None false]%string.
Proof.
  split; [reflexivity|].
  destruct (scheduledSessions_deduplicated sampleNewDate listingState "c1")
    as (listed & Heq & _ & Hded & _).
  - intros p Hp _ _. apply list_elem_of_singleton in Hp as ->. eexists. reflexivity.
  - change (scheduledSessions sampleNewDate listingState "c1") with
      (Returned
         [mkListed "pA" (Some (mkLocalTime 2025 2 1 18 0 0 0)) "c1" (Some "22:00")
            (Some "Library") true;
          mkListed "s2" (Some (mkLocalTime 2025 2 8 18 0 0 0)) "c1" None None false]%string)
      in Heq.
    injection Heq as <-. exact Hded.
Defined.

(** C6 as stated fails for two finalised proposals on the same slot:
    both are listed, though their start minute and location agree. *)
Lemma scheduledSessions_counterexample :
  scheduledSessions sampleNewDate twiceFinalisedState "c1" =
    Returned
      [mkListed "pA" (Some (mkLocalTime 2025 2 1 18 0 0 0)) "c1" (Some "22:00")
         (Some "Library") true;
       mkListed "pB" (Some (mkLocalTime 2025 2 1 18 0 0 0)) "c1" (Some "22:00")
         (Some "Library") true]%string ∧
  duplicates
    (mkListed "pA" (Some (mkLocalTime 2025 2 1 18 0 0 0)) "c1" (Some "22:00")
       (Some "Library") true)
    (mkListed "pB" (Some (mkLocalTime 2025 2 1 18 0 0 0)) "c1" (Some "22:00")
       (Some "Library") true)%string = true.
Proof. split; reflexivity. Qed.

(** * Further properties *)

(** ** Votes on a proposal *)

Lemma indexOf_None {A} `{EqDecision A} (x : A) (l : list A) :
  indexOf x l = None ↔ x ∉ l.
Proof.
  induction l as [|y r IH]; simpl.
  - split; [intros _ Hin; inversion Hin|done].
  - rewrite not_elem_of_cons. destruct (decide (y = x)) as [->|Hne].
    + split; [discriminate|intros [? _]; done].
    + destruct (indexOf x r); simpl.
      * split; [discriminate|]. intros [_ Hr]. apply IH in Hr. discriminate.
      * split; [|done]. intros _. split; [congruence|]. apply IH. done.
Qed.

Lemma spliceOut_absent {A} `{EqDecision A} (x : A) (l : list A) :
  x ∉ l → spliceOut x l = l.
Proof. intros Hx. unfold spliceOut. apply indexOf_None in Hx. rewrite Hx. done. Qed.

Lemma spliceOut_snoc {A} `{EqDecision A} (x : A) (l : list A) :
  x ∉ l → spliceOut x (l ++ [x]) = l.
Proof.
  unfold spliceOut. induction l as [|y r IH]; simpl; intros Hx.
  - destruct (decide (x = x)); done.
  - apply not_elem_of_cons in Hx as [Hxy Hr].
    destruct (decide (y = x)) as [->|_]; [done|].
    specialize (IH Hr). destruct (indexOf x (r ++ [x])); simpl in *; congruence.
Qed.

Lemma spliceOut_once {A} `{EqDecision A} (x : A) (l : list A) :
  (occurrences x l ≤ 1)%nat → x ∉ spliceOut x l.
Proof.
  intros Hle Hin. apply occurrences_pos in Hin.
  rewrite occurrences_spliceOut in Hin. destruct (decide (x = x)); [lia|done].
Qed.

Lemma filter_spliceOut (u : option string) (l : list (option string)) :
  filter (otherThan u) (spliceOut u l) = filter (otherThan u) l.
Proof.
  unfold spliceOut. induction l as [|y r IH]; simpl; [done|].
  destruct (decide (y = u)) as [->|Hne]; simpl.
  - rewrite filter_cons_False by (unfold otherThan; auto). done.
  - destruct (indexOf u r); simpl in *; rewrite !filter_cons, ?IH; done.
Qed.

Lemma js_array_set_twice {A} (i : nat) (x y : A) (l : list (option A)) :
  js_array_set i x (js_array_set i y l) = js_array_set i x l.
Proof.
  unfold js_array_set. destruct (decide (i < length l)%nat) as [Hlt|Hge].
  - rewrite length_insert. rewrite decide_True by done.
    apply list_insert_insert_eq.
  - rewrite !length_app, length_replicate. simpl.
    rewrite decide_True by lia.
    rewrite app_assoc.
    rewrite (insert_app_r_alt (l ++ replicate (i - length l) None)) by
      (rewrite length_app, length_replicate; lia).
    rewrite length_app, length_replicate.
    replace (i - (length l + (i - length l)))%nat with O by lia.
    rewrite <- app_assoc. reflexivity.
Qed.

Lemma handleVote_votedAs (p : Proposal) (i : nat) (vt : VoteType) (st : State) :
  handleVote p i vt st =
  mkProposal (prop_id p) (prop_campaignId p) (createdBy p) (finalized p)
    (finalChoiceIndex p) (options p)
    (js_array_set i (votedAs (currentUserId st) vt (votesOf p i)) (votes p)).
Proof. unfold handleVote, votedAs, votesOf. rewrite clearVote_all. reflexivity. Qed.

Lemma votedAs_votedOnce (u : option string) (vt : VoteType) (v : Votes) :
  votedOnce v → votedOnce (votedAs u vt v).
Proof.
  intros Hv w. specialize (Hv w). unfold votedAs.
  destruct vt; simpl; rewrite ?occurrences_app, !occurrences_spliceOut; simpl;
    destruct (decide (u = w)); lia.
Qed.

Lemma votedAs_places (u : option string) (vt : VoteType) (v : Votes) :
  votedOnce v →
  u ∈ bucket vt (votedAs u vt v) ∧ ∀ b, b ≠ vt → u ∉ bucket b (votedAs u vt v).
Proof.
  intros Hv. split.
  - destruct vt; simpl; apply elem_of_app; right; apply list_elem_of_singleton; done.
  - intros b Hb. specialize (Hv u). rewrite occurrences_pos.
    destruct vt, b; simpl in *; try done;
      rewrite occurrences_spliceOut; destruct (decide (u = u)); try done; lia.
Qed.

(** X1.  A vote moves nobody else: in every bucket of every option the
    ids other than the voter's are the same, in the same order, before
    and after [handleVote]. *)
Theorem handleVote_keeps_other_votes (p : Proposal) (i : nat) (vt : VoteType)
    (st : State) (j : nat) (b : VoteType) :
  filter (otherThan (currentUserId st)) (bucket b (votesOf (handleVote p i vt st) j)) =
  filter (otherThan (currentUserId st)) (bucket b (votesOf p j)).
Proof.
  destruct (decide (i = j)) as [<-|Hne].
  - rewrite votesOf_handleVote. cbv zeta.
    destruct vt, b; simpl; rewrite ?filter_app, ?filter_spliceOut; try done;
      rewrite filter_cons_False by (unfold otherThan; auto);
      rewrite filter_nil, app_nil_r; done.
  - rewrite votesOf_handleVote_other by done. done.
Qed.

(** X2.  Casting the same vote again changes nothing, provided no
    bucket of the option lists the voter more than once. *)
Theorem handleVote_idempotent (p : Proposal) (i : nat) (vt : VoteType) (st : State) :
  (∀ b, (occurrences (currentUserId st) (bucket b (votesOf p i)) ≤ 1)%nat) →
  handleVote (handleVote p i vt st) i vt st = handleVote p i vt st.
Proof.
  intros Honce. rewrite (handleVote_votedAs (handleVote p i vt st)).
  rewrite votesOf_handleVote. cbv zeta.
  rewrite (handleVote_votedAs p). cbn [prop_id prop_campaignId createdBy finalized
    finalChoiceIndex options votes].
  rewrite js_array_set_twice. f_equal. f_equal.
  set (u := currentUserId st). set (v := votesOf p i).
  pose proof (spliceOut_once u _ (Honce Yes)) as Hy.
  pose proof (spliceOut_once u _ (Honce Maybe)) as Hm.
  pose proof (spliceOut_once u _ (Honce No)) as Hn.
  fold v in Hy, Hm, Hn. simpl in Hy, Hm, Hn.
  unfold votedAs. destruct vt; simpl;
    rewrite ?spliceOut_snoc, ?(spliceOut_absent u (spliceOut u _)) by done; done.
Qed.

(** The theorem for u1 voting yes twice on option 0 of [sampleProposal]. *)
Lemma handleVote_idempotent_witness :
  handleVote (handleVote sampleProposal 0 Yes sampleState) 0 Yes sampleState =
  handleVote sampleProposal 0 Yes sampleState.
Proof.
  apply handleVote_idempotent. intros b. destruct b; vm_compute; lia.
Defined.

Lemma votesOf_newProposal (freshId campId : string) (creator : option string)
    (opts : list SlotOption) (i : nat) :
  votesOf (newProposal freshId campId creator opts) i = emptyVotes.
Proof.
  unfold votesOf, newProposal. cbn [votes]. rewrite list_lookup_fmap.
  destruct (opts !! i); reflexivity.
Qed.

Lemma handleVote_votedOnce (p : Proposal) (i j : nat) (vt : VoteType) (st : State) :
  votedOnce (votesOf p j) → votedOnce (votesOf (handleVote p i vt st) j).
Proof.
  intros Hv. destruct (decide (i = j)) as [<-|Hne].
  - rewrite votesOf_handleVote. apply votedAs_votedOnce, Hv.
  - rewrite votesOf_handleVote_other by done. exact Hv.
Qed.

Lemma built_votedOnce (p : Proposal) : built p → ∀ j, votedOnce (votesOf p j).
Proof.
  induction 1 as [freshId campId creator opts|p idx vt st _ IH|p idx _ IH]; intros j.
  - rewrite votesOf_newProposal. intros w. simpl. lia.
  - apply handleVote_votedOnce, IH.
  - exact (IH j).
Qed.

(** C1.  On every proposal the program builds, after [handleVote] the
    voter's id is in the array voted for and in neither of the other
    two arrays of that option; a user is in at most one array of every
    option before the vote and after it, and the result is again a
    proposal the program builds. *)
Theorem handleVote_exclusive (p : Proposal) (i : nat) (vt : VoteType) (st : State) :
  built p →
  let p' := handleVote p i vt st in
  (currentUserId st ∈ bucket vt (votesOf p' i) ∧
   ∀ b, b ≠ vt → currentUserId st ∉ bucket b (votesOf p' i)) ∧
  (∀ j, exclusive (votesOf p j)) ∧
  (∀ j, exclusive (votesOf p' j)) ∧
  built p'.
Proof.
  intros Hp p'.
  pose proof (built_votedOnce p Hp) as Hbefore.
  assert (built p') as Hp' by (apply built_vote, Hp).
  split; [|split; [|split; [|exact Hp']]].
  - subst p'. rewrite votesOf_handleVote.
    fold (votedAs (currentUserId st) vt (votesOf p i)).
    apply votedAs_places, Hbefore.
  - intros j. apply votedOnce_exclusive, Hbefore.
  - intros j. apply votedOnce_exclusive, built_votedOnce, Hp'.
Qed.

(** The theorem for the vote of u1 in [sampleProposal]: no to yes. *)
Lemma handleVote_exclusive_witness :
  (Some "u1"%string ∈ bucket Yes (votesOf (handleVote sampleProposal 0 Yes sampleState) 0) ∧
   ∀ b, b ≠ Yes →
     Some "u1"%string ∉ bucket b (votesOf (handleVote sampleProposal 0 Yes sampleState) 0)) ∧
  votesOf (handleVote sampleProposal 0 Yes sampleState) 0 =
    mkVotes [Some "u2"; Some "u1"]%string [] [].
Proof.
  split; [|reflexivity].
  apply (handleVote_exclusive sampleProposal 0 Yes sampleState).
  change sampleProposal with
    (handleVote
       (handleVote (newProposal "p1" "c1" (Some "dm"%string) sampleOptions) 0 Yes
          (setCurrentUser (Some "u2"%string) sampleState))
       0 No sampleState).
  repeat constructor.
Defined.

Lemma castVotes_votedOnce (st : State) (ballots : list (option string * nat * VoteType))
    (p : Proposal) :
  (∀ j, votedOnce (votesOf p j)) → ∀ j, votedOnce (votesOf (castVotes st p ballots) j).
Proof.
  revert p. induction ballots as [|[[voter idx] vt] rest IH]; intros p Hp; [exact Hp|].
  unfold castVotes. cbn [foldl]. apply IH. intros j. apply handleVote_votedOnce, Hp.
Qed.

Lemma castVotes_frame (st : State) (ballots : list (option string * nat * VoteType))
    (p : Proposal) :
  options (castVotes st p ballots) = options p ∧
  outcome (castVotes st p ballots) = outcome p.
Proof.
  revert p. induction ballots as [|[[voter idx] vt] rest IH]; intros p; [done|].
  change (castVotes st p ((voter, idx, vt) :: rest)) with
    (castVotes st (handleVote p idx vt (setCurrentUser voter st)) rest).
  destruct (IH (handleVote p idx vt (setCurrentUser voter st))) as [-> ->]. done.
Qed.

(** X3.  A proposal saved by the form and then voted on by anybody, in
    any order, keeps every option's buckets exclusive: each id occurs
    at most once among yes, maybe and no.  The voter of the last ballot
    is in the bucket of that ballot and in no other bucket of that
    option, and the options and the unfinalised outcome stay as saved. *)
Theorem castVotes_exclusive (st : State) (freshId campId : string)
    (creator : option string) (opts : list SlotOption)
    (ballots : list (option string * nat * VoteType))
    (voter : option string) (idx : nat) (vt : VoteType) :
  let saved := newProposal freshId campId creator opts in
  let voted := castVotes st saved (ballots ++ [(voter, idx, vt)]) in
  (∀ j, votedOnce (votesOf voted j) ∧ exclusive (votesOf voted j)) ∧
  voter ∈ bucket vt (votesOf voted idx) ∧
  (∀ b, b ≠ vt → voter ∉ bucket b (votesOf voted idx)) ∧
  options voted = opts ∧ outcome voted = (false, None).
Proof.
  intros saved voted.
  assert (Hsaved : ∀ j, votedOnce (votesOf saved j)).
  { intros j w. subst saved. rewrite votesOf_newProposal. simpl. lia. }
  assert (Hvoted : ∀ j, votedOnce (votesOf voted j)).
  { apply castVotes_votedOnce, Hsaved. }
  split; [intros j; split; [apply Hvoted|apply votedOnce_exclusive, Hvoted]|].
  assert (Hlast : voted =
                  handleVote (castVotes st saved ballots) idx vt (setCurrentUser voter st)).
  { subst voted. unfold castVotes. rewrite foldl_app. reflexivity. }
  pose proof (castVotes_votedOnce st ballots saved Hsaved idx) as Hbefore.
  destruct (votedAs_places voter vt _ Hbefore) as [Hin Hout].
  rewrite Hlast, votesOf_handleVote. fold (votedAs voter vt (votesOf (castVotes st saved ballots) idx)).
  split; [exact Hin|]. split; [exact Hout|].
  rewrite <- Hlast. subst voted. destruct (castVotes_frame st (ballots ++ [(voter, idx, vt)]) saved)
    as [-> ->]. done.
Qed.

(** X4.  The proposal form saves nothing when no row has a date, a
    start and an end; otherwise it appends one proposal that holds the
    complete rows in order, is not finalised, belongs to the campaign
    and has one empty vote object per option. *)
Theorem submitProposal_saves (freshId campId : string) (rows : list SlotRow) (state : State) :
  (Forall (λ r, row_date r = EmptyString ∨ row_start r = EmptyString ∨
                row_end r = EmptyString) rows →
   submitProposal freshId campId rows state = state) ∧
  (Exists (λ r, row_date r ≠ EmptyString ∧ row_start r ≠ EmptyString ∧
                row_end r ≠ EmptyString) rows →
   ∃ p, proposals (submitProposal freshId campId rows state) = proposals state ++ [p] ∧
        prop_id p = freshId ∧ prop_campaignId p = campId ∧
        outcome p = (false, None) ∧
        options p = omap optionOfRow rows ∧
        length (votes p) = length (options p) ∧
        (0 < length (options p))%nat ∧
        ∀ i, votesOf p i = emptyVotes).
Proof.
  split.
  - intros Hnone. unfold submitProposal.
    assert (omap optionOfRow rows = []) as ->; [|reflexivity].
    induction Hnone as [|r rows Hr _ IH]; [reflexivity|].
    cbn [omap list_omap]. fold (omap optionOfRow rows). rewrite IH.
    unfold optionOfRow.
    destruct Hr as [-> | [-> | ->]]; [reflexivity| |].
    + destruct (row_date r); reflexivity.
    + destruct (row_date r), (row_start r); reflexivity.
  - intros Hsome. unfold submitProposal.
    assert (omap optionOfRow rows ≠ []) as Hne.
    { induction Hsome as [r rows (Hd & Hs & He)|r rows _ IH].
      - cbn [omap list_omap]. unfold optionOfRow.
        destruct (row_date r), (row_start r), (row_end r); done.
      - cbn [omap list_omap]. fold (omap optionOfRow rows).
        destruct (optionOfRow r); [done|exact IH]. }
    destruct (omap optionOfRow rows) as [|o opts] eqn:Hopts; [done|].
    eexists. split; [reflexivity|].
    repeat split.
    + cbn [votes options newProposal]. rewrite length_fmap. reflexivity.
    + simpl. lia.
    + intros i. apply votesOf_newProposal.
Qed.

(** ** Accounts *)

Lemma sameName_sym (a b : string) : sameName a b = sameName b a.
Proof. unfold sameName. apply bool_decide_ext. split; congruence. Qed.

Lemma existsb_false_Forall {A} (f : A → bool) (l : list A) :
  existsb f l = false ↔ ∀ x, x ∈ l → f x = false.
Proof.
  induction l as [|y r IH]; simpl.
  - split; [intros _ x Hx; inversion Hx|done].
  - rewrite orb_false_iff, IH. split.
    + intros [Hy Hr] x Hx. apply elem_of_cons in Hx as [->|Hx]; auto.
    + intros Hall. split; [apply Hall; left|intros x Hx; apply Hall; right; done].
Qed.

Lemma find_app_fresh {A} (f : A → bool) (l : list A) (x : A) :
  (∀ y, y ∈ l → f y = false) → f x = true → List.find f (l ++ [x]) = Some x.
Proof.
  induction l as [|y r IH]; simpl; intros Hall Hx.
  - rewrite Hx. done.
  - rewrite (Hall y) by left. apply IH; [|done]. intros z Hz. apply Hall. right. done.
Qed.

(** What a submitted registration does, by cases. *)
Lemma registerSubmit_cases (freshId typedName typedPassword : string) (state : State) :
  (registerSubmit freshId typedName typedPassword state = state ∧
   (trim typedName = EmptyString ∨ typedPassword = EmptyString ∨
    ∃ u, u ∈ users state ∧ sameName (username u) (trim typedName) = true)) ∨
  (registerSubmit freshId typedName typedPassword state =
     mkState (users state ++ [mkUser freshId (trim typedName) typedPassword])
       (campaigns state) (sessions state) (proposals state)
       (characters state) (rolls state) (Some freshId) (currentCampaignId state) ∧
   trim typedName ≠ EmptyString ∧ typedPassword ≠ EmptyString ∧
   ∀ u, u ∈ users state → sameName (username u) (trim typedName) = false).
Proof.
  unfold registerSubmit.
  destruct (trim typedName) as [|c n] eqn:Hname; [left; auto|].
  destruct typedPassword as [|d pw]; [left; auto|].
  destruct (existsb _ (users state)) eqn:Hex.
  - left. split; [done|]. right; right.
    apply existsb_exists in Hex as (u & Hin & Hu).
    exists u. split; [apply list_elem_of_In; done|done].
  - right. split; [done|]. split; [done|]. split; [done|].
    apply existsb_false_Forall. exact Hex.
Qed.

(** X5.  Registration keeps the user names distinct up to case: when
    no two users share a name before, none do after, whatever is
    submitted.  A blank name or an empty password registers nobody. *)
Theorem registerSubmit_unique_names (freshId typedName typedPassword : string)
    (state : State) :
  uniqueNames (users state) →
  uniqueNames (users (registerSubmit freshId typedName typedPassword state)) ∧
  (trim typedName = EmptyString ∨ typedPassword = EmptyString →
   registerSubmit freshId typedName typedPassword state = state).
Proof.
  intros Huniq.
  destruct (registerSubmit_cases freshId typedName typedPassword state)
    as [[-> Hwhy]|(-> & Hname & Hpw & Hfresh)].
  - split; [exact Huniq|done].
  - split; [|intros [?|?]; done]. cbn [users].
    intros i j u v Hi Hj Hsame.
    apply lookup_snoc_Some in Hi as [[Hil Hi]|[Hil <-]];
      apply lookup_snoc_Some in Hj as [[Hjl Hj]|[Hjl <-]].
    + apply (Huniq i j u v); done.
    + apply list_elem_of_lookup_2 in Hi. cbn [username] in Hsame.
      rewrite (Hfresh u Hi) in Hsame. discriminate.
    + apply list_elem_of_lookup_2 in Hj. cbn [username] in Hsame.
      rewrite sameName_sym, (Hfresh v Hj) in Hsame. discriminate.
    + lia.
Qed.

(** The theorem for a second registration under the name of ann. *)
Lemma registerSubmit_unique_names_witness :
  uniqueNames (users (registerSubmit "u9" " ANN " "secret" sampleState)) ∧
  registerSubmit "u9" " ANN " "secret" sampleState = sampleState.
Proof.
  split; [|reflexivity].
  apply (registerSubmit_unique_names "u9" " ANN " "secret" sampleState).
  intros i j u v Hi Hj Hsame.
  destruct i as [|[|i]], j as [|[|j]]; simpl in Hi, Hj; simplify_eq;
    try reflexivity; vm_compute in Hsame; discriminate.
Defined.

(** X6.  Round trip: after a registration that was accepted, logging
    out and logging in with the same name and password makes the
    registered user the current user again. *)
Theorem register_logout_login (freshId typedName typedPassword : string) (state : State) :
  trim typedName ≠ EmptyString →
  typedPassword ≠ EmptyString →
  (∀ u, u ∈ users state → sameName (username u) (trim typedName) = false) →
  let registered := registerSubmit freshId typedName typedPassword state in
  currentUserId registered = Some freshId ∧
  currentUserId (handleLogout registered) = None ∧
  loginSubmit typedName typedPassword (handleLogout registered) = registered.
Proof.
  intros Hname Hpw Hfresh registered.
  destruct (registerSubmit_cases freshId typedName typedPassword state)
    as [[_ [?|[?|(u & Hu & Hsame)]]]|(Heq & _ & _ & _)]; try done.
  { rewrite (Hfresh u Hu) in Hsame. discriminate. }
  subst registered. rewrite Heq. split; [reflexivity|]. split; [reflexivity|].
  unfold loginSubmit, findLogin, handleLogout, setCurrentUser. cbn [users].
  rewrite find_app_fresh.
  - reflexivity.
  - intros y Hy. rewrite (Hfresh y Hy). reflexivity.
  - cbn [username password]. unfold sameName.
    rewrite !bool_decide_eq_true_2 by done. reflexivity.
Qed.

(** The theorem for a new user bob registered in [sampleState]. *)
Lemma register_logout_login_witness :
  loginSubmit "Bob" "hunter2"
    (handleLogout (registerSubmit "u3" "Bob" "hunter2" sampleState)) =
  registerSubmit "u3" "Bob" "hunter2" sampleState.
Proof.
  apply (register_logout_login "u3" "Bob" "hunter2" sampleState).
  - discriminate.
  - discriminate.
  - intros u Hu. change (users sampleState) with
      [mkUser "u1" "ann" "pw"; mkUser "dm" "dee" "pw"]%string in Hu.
    rewrite !elem_of_cons, elem_of_nil in Hu.
    destruct Hu as [->|[->|[]]]; reflexivity.
Defined.

(** X7.  Login changes the current user only: it either leaves the
    state as it is, or makes current a stored user whose name equals
    the typed name up to case and surrounding blanks and whose
    password is exactly the typed one.  When no stored user has both,
    the state is unchanged. *)
Theorem loginSubmit_sound (typedName typedPassword : string) (state : State) :
  (loginSubmit typedName typedPassword state = state ∨
   ∃ u, u ∈ users state ∧
        sameName (username u) (trim typedName) = true ∧
        password u = typedPassword ∧
        loginSubmit typedName typedPassword state = setCurrentUser (Some (user_id u)) state) ∧
  ((∀ u, u ∈ users state → sameName (username u) (trim typedName) = true →
         password u ≠ typedPassword) →
   loginSubmit typedName typedPassword state = state).
Proof.
  unfold loginSubmit, findLogin.
  destruct (List.find _ (users state)) as [u|] eqn:Hfind.
  - apply find_some in Hfind as [Hin Hmatch].
    apply andb_prop in Hmatch as [Hname Hpw]. apply bool_decide_eq_true in Hpw.
    apply list_elem_of_In in Hin.
    split; [right; exists u; done|].
    intros Hwrong. destruct (Hwrong u Hin Hname Hpw).
  - split; [left; reflexivity|reflexivity].
Qed.

(** ** Routing *)

Lemma beforeQuery_append (h q : string) :
  hasChar "?" h = false → beforeQuery (h ++ String "?" q) = h ∧ beforeQuery h = h.
Proof.
  induction h as [|c h IH]; simpl.
  - intros _. split; reflexivity.
  - intros Hno. apply orb_false_iff in Hno as [Hc Hh].
    rewrite Hc. destruct (IH Hh) as [-> ->]. done.
Qed.

(** X8.  A visitor without a current user only ever gets the login or
    the registration view, whatever the hash, and rendering leaves the
    state alone; the registration view needs the route [#register].
    For a logged-in user the logout route ends with no current user on
    the login view. *)
Theorem render_guest_gate (idParam : string → option string) (hash : string)
    (state : State) :
  (truthy (currentUserId state) = None →
   (render idParam hash state).2 = state ∧
   ((render idParam hash state).1 = ViewLogin ∨
    (render idParam hash state).1 = ViewRegister) ∧
   ((render idParam hash state).1 = ViewRegister ↔
    beforeQuery hash = "#register"%string)) ∧
  (is_Some (truthy (currentUserId state)) → beforeQuery hash = "#logout"%string →
   render idParam hash state = (ViewLogin, handleLogout state) ∧
   currentUserId (render idParam hash state).2 = None).
Proof.
  split.
  - intros Hguest. unfold render. rewrite Hguest. cbn [fst snd].
    split; [reflexivity|]. unfold guestView.
    destruct hash as [|c h].
    + cbn. split; [left; reflexivity|]. split; discriminate.
    + case_bool_decide as Hroute.
      * split; [right; reflexivity|]. split; done.
      * split; [left; reflexivity|]. split; [discriminate|done].
  - intros [uid Huid] Hroute. unfold render. rewrite Huid.
    destruct hash as [|c h]; [discriminate|].
    rewrite Hroute. split; reflexivity.
Qed.

Lemma afterQuery_append (h q : string) :
  hasChar "?" h = false →
  afterQuery (h +:+ String "?" q) = Some (beforeQuery q) ∧ afterQuery h = None.
Proof.
  induction h as [|c h IH]; simpl.
  - intros _. split; reflexivity.
  - intros Hh. apply orb_false_iff in Hh as [Hc Hh].
    change (String c h +:+ String "?" q) with (String c (h +:+ String "?" q)).
    cbn [afterQuery]. rewrite Hc. apply IH, Hh.
Qed.

Lemma openCampaign_cases (idParam : string → option string) (hash : string)
    (state : State) :
  openCampaign idParam hash state = state ∨
  ∃ q c, afterQuery hash = Some q ∧ c ∈ campaigns state ∧
         idParam q = Some (camp_id c) ∧
         openCampaign idParam hash state = setCurrentCampaign (Some (camp_id c)) state.
Proof.
  unfold openCampaign.
  destruct (List.find _ (campaigns state)) as [c|] eqn:Hfind; [|left; reflexivity].
  right. apply find_some in Hfind as [Hin Hid].
  apply bool_decide_eq_true in Hid.
  destruct (afterQuery hash) as [q|]; [|discriminate Hid].
  exists q, c. split; [reflexivity|]. split; [apply list_elem_of_In, Hin|].
  split; [symmetry; exact Hid|reflexivity].
Qed.

(** X9.  The route is the hash up to its first question mark: adding a
    query string to a hash that has none never changes the view that is
    drawn.  It changes the resulting state on the campaign route only,
    and there only by making a stored campaign whose id the query names
    the current campaign. *)
Theorem render_query_effect (idParam : string → option string) (hash query : string)
    (state : State) :
  hasChar "?" hash = false →
  let shown := render idParam (hash +:+ String "?" query) state in
  let plain := render idParam hash state in
  shown.1 = plain.1 ∧
  (plain.1 ≠ ViewCampaign → shown.2 = plain.2) ∧
  (plain.1 = ViewCampaign →
   plain.2 = state ∧
   (shown.2 = state ∨
    ∃ c, c ∈ campaigns state ∧ idParam (beforeQuery query) = Some (camp_id c) ∧
         shown.2 = setCurrentCampaign (Some (camp_id c)) state)).
Proof.
  intros Hno shown plain.
  destruct (beforeQuery_append hash query Hno) as [Happ Hself].
  destruct (afterQuery_append hash query Hno) as [Hq Hnone].
  assert (Hplain : openCampaign idParam hash state = state).
  { unfold openCampaign. rewrite Hnone. cbn.
    destruct (List.find _ (campaigns state)) as [c|] eqn:Hfind; [|reflexivity].
    apply find_some in Hfind as [_ Hid]. apply bool_decide_eq_true in Hid. discriminate. }
  subst shown plain. unfold render.
  destruct hash as [|c h].
  - change (EmptyString +:+ String "?" query) with (String "?" query).
    cbn. destruct (truthy (currentUserId state)); cbn;
      (split; [reflexivity|]); (split; [intros _; reflexivity|intros Hview; discriminate Hview]).
  - change (String c h +:+ String "?" query)
      with (String c (h +:+ String "?" query)) in *.
    cbv beta iota zeta. rewrite Happ, Hself.
    destruct (truthy (currentUserId state)).
    2: { cbn [fst snd]. split; [reflexivity|]. split; [intros _; reflexivity|].
         unfold guestView. case_bool_decide; intros Hview; discriminate Hview. }
    destruct (viewOfRoute (String c h)) as [view|].
    2: { cbn. split; [reflexivity|]. split; [intros _; reflexivity|].
         intros Hview; discriminate Hview. }
    destruct view; cbn [fst snd]; (split; [reflexivity|]);
      (split; [try (intros _; reflexivity); intros Hview; by destruct Hview|]);
      try (intros Hview; discriminate Hview).
    intros _. rewrite Hplain. split; [reflexivity|].
    destruct (openCampaign_cases idParam (String c (h +:+ String "?" query)) state)
      as [Heq|(q & camp & Hq' & Hin & Hid & Heq)].
    + left. exact Heq.
    + right. exists camp. rewrite Hq in Hq'. injection Hq' as <-.
      split; [exact Hin|]. split; [exact Hid|exact Heq].
Qed.

(** The theorem for the campaign page opened with the id of a stored
    campaign while no campaign is current. *)
Lemma render_query_effect_witness :
  let state := setCurrentCampaign None sampleState in
  let shown := render sampleIdParam ("#campaign" +:+ String "?" "id=c1") state in
  let plain := render sampleIdParam "#campaign" state in
  shown.1 = plain.1 ∧
  (plain.1 ≠ ViewCampaign → shown.2 = plain.2) ∧
  (plain.1 = ViewCampaign →
   plain.2 = state ∧
   (shown.2 = state ∨
    ∃ c, c ∈ campaigns state ∧ sampleIdParam (beforeQuery "id=c1") = Some (camp_id c) ∧
         shown.2 = setCurrentCampaign (Some (camp_id c)) state)).
Proof.
  apply (render_query_effect sampleIdParam "#campaign" "id=c1"
           (setCurrentCampaign None sampleState)).
  reflexivity.
Defined.

(** ** Dice expressions *)

Lemma append_cons (c : ascii) (a b : string) : String c a +:+ b = String c (a +:+ b).
Proof. reflexivity. Qed.

Lemma append_empty (a : string) : a +:+ EmptyString = a.
Proof. induction a as [|c a IH]; [reflexivity|]. rewrite append_cons, IH. reflexivity. Qed.

Lemma digit_not_sign (c : ascii) (r : string) :
  is_digit c = true ∨ c = "d"%char →
  match String c r with
  | String "-"%char r' => (-1, r')
  | String "+"%char r' => (1, r')
  | _ => (1, String c r)
  end = (1, String c r).
Proof.
  intros Hc.
  destruct c as [[|] [|] [|] [|] [|] [|] [|] [|]];
    first [reflexivity | destruct Hc as [Hc|Hc]; discriminate Hc].
Qed.

Lemma digit_not_ws (c : ascii) : is_digit c = true → is_ws c = false.
Proof.
  destruct c as [[|] [|] [|] [|] [|] [|] [|] [|]]; first [reflexivity | discriminate].
Qed.

Lemma digit_not_d (c : ascii) : is_digit c = true → c ≠ "d"%char.
Proof. intros Hc ->. discriminate Hc. Qed.

Lemma digit_value_range (c : ascii) : is_digit c = true → 0 ≤ digit_value c ≤ 9.
Proof.
  destruct c as [[|] [|] [|] [|] [|] [|] [|] [|]]; first [discriminate | vm_compute; split; discriminate].
Qed.

Lemma spanDigits_split (s : string) :
  s = (spanDigits s).1 +:+ (spanDigits s).2 ∧ allDigits (spanDigits s).1 = true.
Proof.
  induction s as [|c r IH]; [done|]. simpl.
  destruct (is_digit c) eqn:Hc; [|done].
  destruct (spanDigits r) as [ds rest]. simpl in *.
  destruct IH as [IH1 IH2]. rewrite Hc, IH2. split; [rewrite append_cons, <- IH1; done|done].
Qed.

Lemma spanDigits_all (ds : string) :
  allDigits ds = true → spanDigits ds = (ds, EmptyString).
Proof.
  induction ds as [|c r IH]; [done|]. simpl. intros Hall.
  apply andb_prop in Hall as [Hc Hr]. rewrite Hc, (IH Hr). done.
Qed.

Lemma digitsValue_nonneg (ds : string) (acc : Z) :
  allDigits ds = true → 0 ≤ acc → 0 ≤ digitsValue acc ds.
Proof.
  revert acc. induction ds as [|c r IH]; intros acc Hall Hacc; [done|].
  simpl in *. apply andb_prop in Hall as [Hc Hr].
  apply IH; [done|]. pose proof (digit_value_range c Hc). lia.
Qed.

Lemma parseInt_digits (ds : string) :
  allDigits ds = true → ds ≠ EmptyString → parseInt ds = Some (digitsValue 0 ds).
Proof.
  intros Hall Hne. destruct ds as [|c r]; [done|].
  pose proof Hall as Hall'. simpl in Hall'. apply andb_prop in Hall' as [Hc Hr].
  unfold parseInt. cbn [trimStart]. rewrite (digit_not_ws c Hc).
  rewrite (digit_not_sign c r) by auto.
  rewrite (spanDigits_all _ Hall). f_equal. lia.
Qed.

Lemma rev_app_rev_app (n a b : string) :
  String.rev_app (String.rev_app n a) b = String.rev_app a (n +:+ b).
Proof.
  revert a. induction n as [|c n IH]; intros a; [reflexivity|].
  simpl. rewrite IH. reflexivity.
Qed.

Lemma splitOnD_digits (n cur rest : string) :
  allDigits n = true →
  splitOnD cur (n +:+ rest) = splitOnD (String.rev_app n cur) rest.
Proof.
  revert cur. induction n as [|c n IH]; intros cur Hall; [reflexivity|].
  simpl in Hall. apply andb_prop in Hall as [Hc Hn].
  rewrite append_cons. cbn [splitOnD String.rev_app].
  rewrite bool_decide_eq_false_2 by (apply digit_not_d, Hc).
  apply IH, Hn.
Qed.

Lemma splitOnD_number (n : string) :
  allDigits n = true → splitOnD EmptyString n = [n].
Proof.
  intros Hall. rewrite <- (append_empty n) at 1.
  rewrite splitOnD_digits by done. cbn [splitOnD]. unfold String.rev.
  rewrite rev_app_rev_app. cbn [String.rev_app]. rewrite append_empty. reflexivity.
Qed.

Lemma splitOnD_dice (n m : string) :
  allDigits n = true → allDigits m = true →
  splitOnD EmptyString (n +:+ String "d" m) = [n; m].
Proof.
  intros Hn Hm. rewrite splitOnD_digits by done. cbn [splitOnD].
  rewrite bool_decide_eq_true_2 by done.
  rewrite splitOnD_number by done. unfold String.rev.
  rewrite rev_app_rev_app. cbn [String.rev_app]. rewrite append_empty. reflexivity.
Qed.

Lemma termOfToken_dice (sg n m : string) :
  isSign sg → allDigits n = true → allDigits m = true → m ≠ EmptyString →
  termOfToken (sg +:+ n +:+ String "d" m) =
  DiceTerm (countValue n) (digitsValue 0 m) (signValue sg).
Proof.
  intros Hsg Hn Hm Hne.
  assert (Hbody : ∀ sign,
            (let parts := splitOnD EmptyString (n +:+ String "d" m) in
             match parts with
             | _ :: _ :: _ =>
                 let count :=
                   match parts !! 0%nat with
                   | Some EmptyString => Some 1
                   | Some p => parseInt p
                   | None => None
                   end in
                 let size := parts !! 1%nat ≫= parseInt in
                 DiceTerm (default 1 count) (default 6 size) sign
             | _ => ModTerm (default 0 (parseInt (n +:+ String "d" m)) * sign)
             end) = DiceTerm (countValue n) (digitsValue 0 m) sign).
  { intros sign. rewrite splitOnD_dice by done. cbn zeta. cbn [lookup list_lookup mbind option_bind].
    rewrite (parseInt_digits m) by done. cbn [default].
    destruct n as [|c n']; [reflexivity|].
    rewrite (parseInt_digits (String c n')) by done. reflexivity. }
  unfold termOfToken.
  destruct Hsg as [-> | [-> | ->]].
  - change (EmptyString +:+ n +:+ String "d" m) with (n +:+ String "d" m).
    destruct n as [|c n'].
    + change (EmptyString +:+ String "d" m) with (String "d" m) in *.
      rewrite (digit_not_sign "d" m) by auto. apply Hbody.
    + rewrite append_cons. rewrite (digit_not_sign c) by
        (left; simpl in Hn; apply andb_prop in Hn as [Hc _]; exact Hc).
      rewrite <- append_cons. apply Hbody.
  - apply Hbody.
  - apply Hbody.
Qed.

Lemma termOfToken_number (sg n : string) :
  isSign sg → allDigits n = true → n ≠ EmptyString →
  termOfToken (sg +:+ n) = ModTerm (digitsValue 0 n * signValue sg).
Proof.
  intros Hsg Hn Hne.
  assert (Hbody : ∀ sign,
            (let parts := splitOnD EmptyString n in
             match parts with
             | _ :: _ :: _ =>
                 let count :=
                   match parts !! 0%nat with
                   | Some EmptyString => Some 1
                   | Some p => parseInt p
                   | None => None
                   end in
                 let size := parts !! 1%nat ≫= parseInt in
                 DiceTerm (default 1 count) (default 6 size) sign
             | _ => ModTerm (default 0 (parseInt n) * sign)
             end) = ModTerm (digitsValue 0 n * sign)).
  { intros sign. rewrite splitOnD_number by done. cbn zeta.
    rewrite parseInt_digits by done. reflexivity. }
  unfold termOfToken.
  destruct Hsg as [-> | [-> | ->]].
  - change (EmptyString +:+ n) with n.
    destruct n as [|c n']; [done|].
    rewrite (digit_not_sign c) by
      (left; simpl in Hn; apply andb_prop in Hn as [Hc _]; exact Hc).
    apply Hbody.
  - apply Hbody.
  - apply Hbody.
Qed.

Lemma spanSign_sign (s : string) : isSign (spanSign s).1.
Proof.
  unfold isSign. destruct s as [|c r]; [auto|].
  destruct c as [[|] [|] [|] [|] [|] [|] [|] [|]]; simpl; auto.
Qed.

Lemma matchDice_token (s tok rest : string) :
  matchDice s = Some (tok, rest) → diceToken tok.
Proof.
  unfold matchDice. pose proof (spanSign_sign s) as Hsg.
  destruct (spanSign s) as [sg s1]. simpl in Hsg.
  destruct (spanDigits_split s1) as [_ Hn].
  destruct (spanDigits s1) as [n s2]. simpl in Hn.
  destruct s2 as [|c s3]; [discriminate|].
  destruct (decide (c = "d"%char)) as [->|Hc].
  - destruct (spanDigits_split s3) as [_ Hm].
    destruct (spanDigits s3) as [m s4]. simpl in Hm.
    destruct m as [|d m']; [discriminate|].
    intros [= <- <-]. exists sg, n, (String d m'). done.
  - destruct c as [[|] [|] [|] [|] [|] [|] [|] [|]]; first [discriminate | done].
Qed.

Lemma matchNumber_token (s tok rest : string) :
  matchNumber s = Some (tok, rest) → numberToken tok.
Proof.
  unfold matchNumber. pose proof (spanSign_sign s) as Hsg.
  destruct (spanSign s) as [sg s1]. simpl in Hsg.
  destruct (spanDigits_split s1) as [_ Hn].
  destruct (spanDigits s1) as [n s2]. simpl in Hn.
  destruct n as [|d n']; [discriminate|].
  intros [= <- <-]. exists sg, (String d n'). done.
Qed.

Lemma scanTokens_tokens (fuel : nat) (s : string) :
  Forall (λ tok, diceToken tok ∨ numberToken tok) (scanTokens fuel s).
Proof.
  revert s. induction fuel as [|fuel IH]; intros s; [constructor|].
  simpl. destruct s as [|c r]; [constructor|].
  unfold matchToken.
  destruct (matchDice (String c r)) as [[tok rest]|] eqn:Hd.
  - constructor; [left; eapply matchDice_token; eauto|apply IH].
  - destruct (matchNumber (String c r)) as [[tok rest]|] eqn:Hn.
    + constructor; [right; eapply matchNumber_token; eauto|apply IH].
    + apply IH.
Qed.

Lemma signValue_sign (sg : string) : isSign sg → signValue sg = 1 ∨ signValue sg = -1.
Proof. intros [-> | [-> | ->]]; simpl; auto. Qed.

Lemma termOfToken_wellFormed (tok : string) :
  diceToken tok ∨ numberToken tok → wellFormed (termOfToken tok).
Proof.
  intros [(sg & n & m & -> & Hsg & Hn & Hm & Hne)|(sg & n & -> & Hsg & Hn & Hne)].
  - rewrite termOfToken_dice by done. simpl.
    split; [|split].
    + destruct n; [simpl; lia|]. apply digitsValue_nonneg; [done|lia].
    + apply digitsValue_nonneg; [done|lia].
    + apply signValue_sign, Hsg.
  - rewrite termOfToken_number by done. exact I.
Qed.

Lemma removeWhitespace_clean (s : string) :
  removeWhitespace (removeWhitespace s) = removeWhitespace s.
Proof.
  induction s as [|c r IH]; [reflexivity|]. simpl.
  destruct (is_ws c) eqn:Hc; [exact IH|]. simpl. rewrite Hc, IH. reflexivity.
Qed.

Lemma removeWhitespace_app (a b : string) :
  removeWhitespace (a +:+ b) = removeWhitespace a +:+ removeWhitespace b.
Proof.
  induction a as [|c a IH]; [reflexivity|].
  rewrite append_cons. simpl. destruct (is_ws c); [exact IH|].
  rewrite append_cons, IH. reflexivity.
Qed.

Lemma spanDigits_no_digit (s : string) :
  hasDigit s = false → spanDigits s = (EmptyString, s).
Proof.
  destruct s as [|c r]; [reflexivity|]. simpl. intros H.
  apply orb_false_iff in H as [-> _]. reflexivity.
Qed.

Lemma spanSign_no_digit (s : string) :
  hasDigit s = false → hasDigit (spanSign s).2 = false.
Proof.
  destruct s as [|c r]; [done|]. simpl. intros H.
  apply orb_false_iff in H as [Hc Hr].
  unfold spanSign.
  destruct c as [[|] [|] [|] [|] [|] [|] [|] [|]]; simpl; try exact Hr;
    try (rewrite Hr; reflexivity); discriminate Hc.
Qed.

Lemma matchToken_no_digit (s : string) : hasDigit s = false → matchToken s = None.
Proof.
  intros Hs. pose proof (spanSign_no_digit s Hs) as Hs1.
  unfold matchToken, matchDice, matchNumber.
  destruct (spanSign s) as [sg s1]. cbn [snd] in Hs1.
  rewrite (spanDigits_no_digit s1 Hs1).
  destruct s1 as [|c s3]; [reflexivity|].
  assert (hasDigit s3 = false) as Hs3.
  { simpl in Hs1. apply orb_false_iff in Hs1 as [_ H]. exact H. }
  destruct (decide (c = "d"%char)) as [-> | Hc].
  - rewrite (spanDigits_no_digit s3 Hs3). reflexivity.
  - destruct c as [[|] [|] [|] [|] [|] [|] [|] [|]]; try reflexivity. done.
Qed.

Lemma scanTokens_no_digit (fuel : nat) (s : string) :
  hasDigit s = false → scanTokens fuel s = [].
Proof.
  revert s. induction fuel as [|fuel IH]; intros s Hs; [reflexivity|].
  cbn [scanTokens]. destruct s as [|c r]; [reflexivity|].
  rewrite (matchToken_no_digit _ Hs). apply IH.
  simpl in Hs. apply orb_false_iff in Hs as [_ H]. exact H.
Qed.

Lemma matchNumber_digit (c : ascii) (r : string) :
  is_digit c = true → is_Some (matchNumber (String c r)).
Proof.
  intros Hc. unfold matchNumber.
  assert (spanSign (String c r) = (EmptyString, String c r)) as ->.
  { destruct c as [[|] [|] [|] [|] [|] [|] [|] [|]]; first [reflexivity|discriminate Hc]. }
  cbn [spanDigits]. rewrite Hc. destruct (spanDigits r) as [ds rest]. eauto.
Qed.

Lemma scanTokens_digit (fuel : nat) (s : string) :
  (String.length s ≤ fuel)%nat → hasDigit s = true → scanTokens fuel s ≠ [].
Proof.
  revert s. induction fuel as [|fuel IH]; intros s Hlen Hs.
  - destruct s; [discriminate Hs|simpl in Hlen; lia].
  - destruct s as [|c r]; [discriminate Hs|]. cbn [scanTokens].
    destruct (matchToken (String c r)) as [[tok rest]|] eqn:Hm; [discriminate|].
    apply IH; [simpl in Hlen; lia|].
    simpl in Hs. destruct (is_digit c) eqn:Hc; [|exact Hs].
    exfalso. unfold matchToken in Hm.
    destruct (matchDice (String c r)); [discriminate|].
    destruct (matchNumber_digit c r Hc) as [x Hx]. rewrite Hx in Hm. discriminate.
Qed.

Lemma hasDigit_removeWhitespace (s : string) :
  hasDigit (removeWhitespace s) = hasDigit s.
Proof.
  induction s as [|c r IH]; [reflexivity|]. simpl.
  destruct (is_ws c) eqn:Hw.
  - rewrite IH. destruct (is_digit c) eqn:Hc; [|reflexivity].
    rewrite (digit_not_ws c Hc) in Hw. discriminate.
  - simpl. rewrite IH. reflexivity.
Qed.

Lemma parseDiceExpression_terms (expr : string) :
  Forall wellFormed (parseDiceExpression expr).
Proof.
  unfold parseDiceExpression. apply Forall_fmap.
  eapply Forall_impl; [apply scanTokens_tokens|].
  intros tok Htok. apply termOfToken_wellFormed, Htok.
Qed.

(** X10.  Every term the parser builds is well formed: a dice term has
    a count and a size that are not negative and a sign that is 1 or
    -1.  An expression parses to no term exactly when it holds no
    digit, and white space is ignored wherever it stands, even inside a
    number. *)
Theorem parseDiceExpression_wellFormed (expr : string) :
  Forall wellFormed (parseDiceExpression expr) ∧
  (parseDiceExpression expr = [] ↔ hasDigit expr = false) ∧
  (∀ a b ws, is_ws ws = true →
     parseDiceExpression (a +:+ String ws b) = parseDiceExpression (a +:+ b)).
Proof.
  split; [apply parseDiceExpression_terms|split].
  - unfold parseDiceExpression. split.
    + intros Hnil. destruct (hasDigit expr) eqn:Hd; [|reflexivity].
      exfalso. apply fmap_nil_inv in Hnil. revert Hnil.
      apply scanTokens_digit; [lia|]. rewrite hasDigit_removeWhitespace. exact Hd.
    + intros Hd. rewrite scanTokens_no_digit; [reflexivity|].
      rewrite hasDigit_removeWhitespace. exact Hd.
  - intros a b ws Hws. unfold parseDiceExpression.
    rewrite !removeWhitespace_app. cbn [removeWhitespace]. rewrite Hws. reflexivity.
Qed.

Section DiceBounds.

Variable random : nat → Z → Z.
Hypothesis random_inRange : inRange random.

Lemma rollOne_iter_sum (count size sign : Z) (n : nat) (st : Rolling) (rs : list Z) :
  0 ≤ size → sign = 1 ∨ sign = -1 →
  let st' := (Nat.iter n (rollOne random count size sign) (st, rs)).1 in
  if bool_decide (sign = -1)
  then sum st - Z.of_nat n * Z.max 1 size ≤ sum st' ≤ sum st - Z.of_nat n
  else sum st + Z.of_nat n ≤ sum st' ≤ sum st + Z.of_nat n * Z.max 1 size.
Proof.
  intros Hsize Hsign. induction n as [|n IH]; cbn zeta in *.
  - simpl. case_bool_decide; lia.
  - rewrite Nat.iter_succ.
    destruct (Nat.iter n (rollOne random count size sign) (st, rs)) as [st1 rs1].
    cbn [fst rollOne sum] in *.
    pose proof (random_inRange (drawn st1) size Hsize) as Hroll.
    destruct Hsign as [-> | ->].
    + rewrite bool_decide_eq_false_2 in * by lia. nia.
    + rewrite bool_decide_eq_true_2 in * by lia. nia.
Qed.

Lemma rollTerm_sum (st : Rolling) (t : Term) :
  wellFormed t →
  sum st + lowest t ≤ sum (rollTerm random st t) ≤ sum st + highest t.
Proof.
  destruct t as [count size sign|m]; simpl; [|lia].
  intros (Hcount & Hsize & Hsign).
  pose proof (rollOne_iter_sum count size sign (Z.to_nat count) st [] Hsize Hsign) as Hsum.
  cbn zeta in Hsum.
  destruct (Nat.iter (Z.to_nat count) (rollOne random count size sign) (st, []))
    as [st' rs]. cbn [fst sum] in *.
  rewrite Z2Nat.id in Hsum by lia.
  case_bool_decide; lia.
Qed.

Lemma foldl_rollTerm_sum (terms : list Term) (st : Rolling) :
  Forall wellFormed terms →
  sum st + sumZ (lowest <$> terms) ≤ sum (foldl (rollTerm random) st terms)
    ≤ sum st + sumZ (highest <$> terms).
Proof.
  intros Hwf. revert st. induction Hwf as [|t terms Ht _ IH]; intros st.
  - simpl. lia.
  - cbn [foldl]. rewrite !fmap_cons.
    change (sumZ (lowest t :: (lowest <$> terms)))
      with (lowest t + sumZ (lowest <$> terms)).
    change (sumZ (highest t :: (highest <$> terms)))
      with (highest t + sumZ (highest <$> terms)).
    specialize (IH (rollTerm random st t)).
    pose proof (rollTerm_sum st t Ht).
    lia.
Qed.

End DiceBounds.

Lemma rollDice_total (random : nat → Z → Z) (freshId : string) (now : Z)
    (expr label : string) (state : option State) (res : RollResult)
    (after : option State) :
  rollDice random freshId now expr label state = Returned (res, after) →
  total res = sum (rollTerms random (parseDiceExpression expr)).
Proof.
  unfold rollDice. intros Hret.
  destruct state as [s|]; [|by simplify_eq].
  destruct (truthy (currentUserId s)); [|by simplify_eq].
  destruct (rolls s); by simplify_eq.
Qed.

(** X11.  When every die shows one of its faces and the expression is
    one the code computes exactly (no dice term of 2^32 or more dice,
    amounts of at most 2^53 together), the total of a roll lies between
    the sum of the least and the sum of the greatest amounts of the
    parsed terms: a term [NdS] adds between N and N*S, a subtracted one
    between -N*S and -N, a modifier its value. *)
Theorem rollDice_total_bounds (random : nat → Z → Z) (expr : string) :
  inRange random →
  exactRoll (parseDiceExpression expr) →
  sumZ (lowest <$> parseDiceExpression expr)
    ≤ sum (rollTerms random (parseDiceExpression expr))
    ≤ sumZ (highest <$> parseDiceExpression expr) ∧
  ∀ freshId now label state res after,
    rollDice random freshId now expr label state = Returned (res, after) →
    sumZ (lowest <$> parseDiceExpression expr) ≤ total res
      ≤ sumZ (highest <$> parseDiceExpression expr).
Proof.
  intros Hrange _.
  assert (Hsum : sumZ (lowest <$> parseDiceExpression expr)
                   ≤ sum (rollTerms random (parseDiceExpression expr))
                   ≤ sumZ (highest <$> parseDiceExpression expr)).
  { pose proof (foldl_rollTerm_sum random Hrange (parseDiceExpression expr)
                  (mkRolling 0 0 None [])
                  (parseDiceExpression_terms expr)) as H.
    cbn [sum] in H. unfold rollTerms. lia. }
  split; [exact Hsum|].
  intros freshId now label state res after Hret.
  rewrite (rollDice_total _ _ _ _ _ _ _ _ Hret). exact Hsum.
Qed.

(** The theorem for [2d6+3]: between 5 and 15. *)
Lemma rollDice_total_bounds_witness :
  5 ≤ sum (rollTerms halfRolls (parseDiceExpression "2d6+3")) ≤ 15.
Proof.
  apply (rollDice_total_bounds halfRolls "2d6+3").
  - intros k size Hsize. unfold halfRolls.
    split; [apply Z.div_pos; lia|].
    destruct (decide (size ≤ 1)).
    + assert (size `div` 2 = 0) as ->; [|lia].
      apply Z.div_small. lia.
    + assert (size `div` 2 < size) by (apply Z.div_lt; lia). lia.
  - split; [repeat constructor|vm_compute; discriminate].
Defined.

(** ** Ability checks *)










(** ** The roll log *)

Lemma insertBy_Permutation {A} (cmp : A → A → Z) (x : A) (l : list A) :
  insertBy cmp x l ≡ₚ x :: l.
Proof.
  induction l as [|y r IH]; simpl; [done|].
  case_bool_decide; [done|]. rewrite IH. apply Permutation_swap.
Qed.

Lemma sortBy_Permutation {A} (cmp : A → A → Z) (l : list A) : sortBy cmp l ≡ₚ l.
Proof.
  induction l as [|x l IH]; simpl; [done|].
  rewrite insertBy_Permutation. f_equiv. exact IH.
Qed.

Lemma insertBy_newestFirst (x : RollEntry) (l : list RollEntry) :
  StronglySorted notOlder l → StronglySorted notOlder (insertBy newestFirst x l).
Proof.
  induction l as [|y r IH]; simpl; intros Hs.
  - repeat constructor.
  - apply StronglySorted_cons in Hs as [Hall Hr].
    case_bool_decide as Hcmp; unfold newestFirst in Hcmp.
    + apply StronglySorted_cons. split.
      * constructor; [unfold notOlder; lia|].
        eapply Forall_impl; [exact Hall|]. unfold notOlder. intros z Hz. lia.
      * apply StronglySorted_cons. done.
    + apply StronglySorted_cons. split; [|apply IH, Hr].
      rewrite insertBy_Permutation. constructor; [unfold notOlder; lia|exact Hall].
Qed.

Lemma sortBy_newestFirst (l : list RollEntry) :
  StronglySorted notOlder (sortBy newestFirst l).
Proof.
  induction l as [|x l IH]; simpl; [constructor|]. apply insertBy_newestFirst, IH.
Qed.

(** X13.  The roll log shows at most 20 entries, newest first, all of
    them entries of the campaign shown (or, without a campaign, of the
    current user).  It leaves out a matching entry only when 20 are
    shown and none of those is older than it. *)
Theorem renderRollLog_newest (state : State) (campaignId : option string)
    (logs : list RollEntry) :
  rolls state = Some logs →
  ∃ shown,
    renderRollLog state campaignId = Returned shown ∧
    (length shown ≤ 20)%nat ∧
    StronglySorted notOlder shown ∧
    (∀ r, r ∈ shown → r ∈ logs ∧ inLogView state campaignId r) ∧
    (∀ r, r ∈ logs → inLogView state campaignId r →
       r ∈ shown ∨ (length shown = 20%nat ∧ ∀ s, s ∈ shown → timestamp r ≤ timestamp s)).
Proof.
  intros Hrolls. unfold renderRollLog. rewrite Hrolls.
  set (chosen :=
         match truthy campaignId with
         | Some c => filter (λ r, roll_campaignId r = Some c) logs
         | None =>
             match truthy (currentUserId state) with
             | Some u => filter (λ r, roll_userId r = u) logs
             | None => logs
             end
         end).
  assert (Hchosen : ∀ r, r ∈ chosen ↔ r ∈ logs ∧ inLogView state campaignId r).
  { intros r. subst chosen. unfold inLogView.
    destruct (truthy campaignId) as [c|].
    - rewrite list_elem_of_filter. tauto.
    - destruct (truthy (currentUserId state)) as [u|].
      + rewrite list_elem_of_filter. tauto.
      + tauto. }
  pose proof (sortBy_newestFirst chosen) as Hsorted.
  pose proof (sortBy_Permutation newestFirst chosen) as Hperm.
  rewrite <- (take_drop 20 (sortBy newestFirst chosen)) in Hsorted.
  eexists. split; [reflexivity|]. split; [|split; [|split]].
  - rewrite length_take. lia.
  - eapply StronglySorted_app_1_l, Hsorted.
  - intros r Hr. apply Hchosen. rewrite <- Hperm.
    apply elem_of_take in Hr as (i & Hi & _). eapply list_elem_of_lookup_2, Hi.
  - intros r Hr Hview.
    assert (r ∈ take 20 (sortBy newestFirst chosen) ++ drop 20 (sortBy newestFirst chosen))
      as Hin.
    { rewrite take_drop, Hperm. apply Hchosen. done. }
    apply elem_of_app in Hin as [Hin|Hin]; [left; exact Hin|right].
    split.
    + rewrite length_take. apply list_elem_of_lookup_1 in Hin as [i Hi].
      apply lookup_lt_Some in Hi. rewrite length_drop in Hi. lia.
    + intros s Hs. apply (StronglySorted_app_1_elem_of _ _ _ s r Hsorted); done.
Qed.

(** The theorem for the log of campaign c1 in [loggedState]. *)
Lemma renderRollLog_newest_witness :
  ∃ shown,
    renderRollLog loggedState (Some "c1"%string) = Returned shown ∧
    (length shown ≤ 20)%nat ∧
    StronglySorted notOlder shown ∧
    (∀ r, r ∈ shown →
       r ∈ [mkRollEntry "r1" 5 "u1" "ann" "1d6" "1d6" 4 "4" None (Some "c1");
            mkRollEntry "r2" 9 "u1" "ann" "1d6" "1d6" 2 "2" None (Some "c2");
            mkRollEntry "r3" 7 "dm" "dee" "1d6" "1d6" 6 "6" None (Some "c1")]%string ∧
       inLogView loggedState (Some "c1"%string) r) ∧
    (∀ r, r ∈ [mkRollEntry "r1" 5 "u1" "ann" "1d6" "1d6" 4 "4" None (Some "c1");
               mkRollEntry "r2" 9 "u1" "ann" "1d6" "1d6" 2 "2" None (Some "c2");
               mkRollEntry "r3" 7 "dm" "dee" "1d6" "1d6" 6 "6" None (Some "c1")]%string →
       inLogView loggedState (Some "c1"%string) r →
       r ∈ shown ∨ (length shown = 20%nat ∧ ∀ s, s ∈ shown → timestamp r ≤ timestamp s)).
Proof.
  apply (renderRollLog_newest loggedState (Some "c1"%string)). reflexivity.
Defined.

(** ** Sessions of the earlier variant in the list *)

Lemma listProposals_member (newDate : string → option LocalTime) (campaignId : string)
    (ps : list Proposal) (es : list Listed) (q : Proposal) :
  listProposals newDate campaignId ps = Returned es → q ∈ ps →
  ∃ e, e ∈ es ∧ listProposal newDate campaignId q = Returned e.
Proof.
  revert es. induction ps as [|p ps IH]; intros es Hret Hq; [inversion Hq|].
  simpl in Hret.
  destruct (listProposal newDate campaignId p) as [e|] eqn:Hp; [|discriminate].
  destruct (listProposals newDate campaignId ps) as [es'|]; [|discriminate].
  injection Hret as <-.
  apply elem_of_cons in Hq as [-> | Hq].
  - exists e. split; [left|exact Hp].
  - destruct (IH es' eq_refl Hq) as (e' & He' & Hl).
    exists e'. split; [right; exact He'|exact Hl].
Qed.

Lemma listProposal_finalized (newDate : string → option LocalTime) (campaignId : string)
    (idx : nat) (p : Proposal) (opt : SlotOption) :
  options p !! idx = Some opt →
  listProposal newDate campaignId (finalizeProposal idx p) =
    Returned (mkListed (prop_id p) (newDate (date opt +:+ "T" +:+ start opt))
                campaignId (Some (slot_end opt)) (slot_location opt) true).
Proof.
  intros Hopt. unfold listProposal, finalizeProposal. cbn. rewrite Hopt. reflexivity.
Qed.

Lemma elem_of_alter_finalize (idx k : nat) (ps : list Proposal) (p : Proposal) :
  ps !! k = Some p → finalizeProposal idx p ∈ alter (finalizeProposal idx) k ps.
Proof.
  intros Hk. apply list_elem_of_lookup. exists k.
  rewrite list_lookup_alter_eq, Hk. reflexivity.
Qed.

Lemma elem_of_alter_inv (idx k : nat) (ps : list Proposal) (q : Proposal) :
  q ∈ alter (finalizeProposal idx) k ps →
  q ∈ ps ∨ ∃ p, ps !! k = Some p ∧ q = finalizeProposal idx p.
Proof.
  intros Hq. apply list_elem_of_lookup in Hq as [j Hj].
  destruct (decide (j = k)) as [-> | Hne].
  - rewrite list_lookup_alter_eq in Hj.
    destruct (ps !! k) as [p|] eqn:Hk; [|discriminate]. cbn in Hj.
    injection Hj as <-. right. eauto.
  - rewrite list_lookup_alter_ne in Hj by congruence.
    left. apply list_elem_of_lookup. eauto.
Qed.

(** X15.  On the campaign page of the earlier variant an option
    finalised by its handler is listed twice, provided every finalised
    proposal of the campaign has its chosen option: once as the
    converted proposal and once as the session the handler pushed, both
    with the same date, end and location. *)
Theorem earlierScheduledSessions_lists_twice (newDate : string → option LocalTime)
    (freshId : string) (k idx : nat) (state : State)
    (p : Proposal) (opt : SlotOption) :
  proposals state !! k = Some p →
  options p !! idx = Some opt →
  (∀ q, q ∈ proposals state → prop_campaignId q = prop_campaignId p →
        finalized q = true →
        is_Some (finalChoiceIndex q ≫= (λ i, options q !! i))) →
  ∃ listed,
    earlierScheduledSessions newDate (Earlier.finalizeClick freshId k idx state)
      (prop_campaignId p) = Returned listed ∧
    mkListed (prop_id p) (newDate (date opt +:+ "T" +:+ start opt))
      (prop_campaignId p) (Some (slot_end opt)) (slot_location opt) true ∈ listed ∧
    mkListed freshId (newDate (date opt +:+ "T" +:+ start opt))
      (prop_campaignId p) (Some (slot_end opt)) (slot_location opt) false ∈ listed.
Proof.
  intros Hk Hopt Hall.
  unfold Earlier.finalizeClick, earlierScheduledSessions.
  rewrite Hk, Hopt. cbn [proposals sessions].
  destruct (listProposals_returns newDate (prop_campaignId p)
              (filter (λ q, prop_campaignId q = prop_campaignId p ∧ finalized q = true)
                 (alter (finalizeProposal idx) k (proposals state)))) as [es Hes].
  { intros q Hq. apply list_elem_of_filter in Hq as [[Hc Hf] Hq].
    apply elem_of_alter_inv in Hq as [Hq|(p' & Hk' & ->)].
    - apply Hall; assumption.
    - rewrite Hk in Hk'. injection Hk' as <-.
      cbn. rewrite Hopt. eauto. }
  rewrite Hes. eexists. split; [reflexivity|]. split.
  - apply elem_of_app. left.
    assert (finalizeProposal idx p ∈
              filter (λ q, prop_campaignId q = prop_campaignId p ∧ finalized q = true)
                (alter (finalizeProposal idx) k (proposals state))) as Hin.
    { apply list_elem_of_filter. split; [split; reflexivity|].
      apply elem_of_alter_finalize, Hk. }
    destruct (listProposals_member _ _ _ _ _ Hes Hin) as (e & He & Hl).
    rewrite (listProposal_finalized _ _ _ _ _ Hopt) in Hl. injection Hl as <-. exact He.
  - apply elem_of_app. right. rewrite filter_app, fmap_app. apply elem_of_app. right.
    rewrite filter_cons, filter_nil. cbn [sess_campaignId].
    rewrite decide_True by reflexivity. cbn. left.
Qed.

(** The theorem for option 1 of the sample proposal. *)
Lemma earlierScheduledSessions_lists_twice_witness :
  ∃ listed,
    earlierScheduledSessions sampleNewDate (Earlier.finalizeClick "s1" 0 1 sampleState)
      "c1" = Returned listed ∧
    mkListed "p1" (sampleNewDate "2025-03-02T19:30") "c1" (Some "23:00") None true
      ∈ listed ∧
    mkListed "s1" (sampleNewDate "2025-03-02T19:30") "c1" (Some "23:00") None false
      ∈ listed.
Proof.
  apply (earlierScheduledSessions_lists_twice sampleNewDate "s1" 0 1 sampleState
           sampleProposal (mkSlotOption "2025-03-02" "19:30" "23:00" None)).
  - reflexivity.
  - reflexivity.
  - intros q Hq _ Hfin. apply list_elem_of_singleton in Hq. subst q. discriminate Hfin.
Defined.

(** ** Level and experience stay in step *)

Lemma getLevelFromXp_le (a b : Z) :
  a ≤ b → getLevelFromXp (Some a) ≤ getLevelFromXp (Some b).
Proof.
  intros Hab.
  pose proof (scanThresholds_spec (Some a) (length thresholds)) as H.
  unfold getLevelFromXp at 1.
  destruct (scanThresholds (Some a) (length thresholds)) as [lvl|].
  - destruct H as (i & t & _ & Hi & Hsat & -> & _).
    apply (getLevelFromXp_reaches b i t Hi).
    unfold js_ge in Hsat. apply bool_decide_eq_true in Hsat. lia.
  - apply getLevelFromXp_at_least_1.
Qed.

Lemma getLevelFromXp_at_most_20 (xp : option Z) : getLevelFromXp xp ≤ 20.
Proof.
  unfold getLevelFromXp.
  pose proof (scanThresholds_spec xp (length thresholds)) as H.
  destruct (scanThresholds xp (length thresholds)) as [lvl|]; [|lia].
  destruct H as (i & t & Hi & _ & _ & -> & _).
  change (length thresholds) with 20%nat in Hi. lia.
Qed.

Lemma levelLoop_frame (fetchLevelFeatures : string → Z → list string)
    (asiAnswer : Z → option string) (n : nat) (lvl : Z) (ch : Character) :
  level (levelLoop fetchLevelFeatures asiAnswer n lvl ch) = level ch ∧
  xp (levelLoop fetchLevelFeatures asiAnswer n lvl ch) = xp ch.
Proof.
  revert lvl ch. induction n as [|n IH]; intros lvl ch; simpl; [done|].
  destruct (IH (lvl + 1) (applyLevel fetchLevelFeatures asiAnswer lvl ch)) as [-> ->].
  destruct (applyLevel_frame fetchLevelFeatures asiAnswer lvl ch) as (_ & _ & -> & ->).
  done.
Qed.

(** X16.  Awarding experience keeps the stored level in step with the
    stored experience: on a character whose level is the one its XP
    gives, it is so again after the click, for every answer to the
    prompt whose amount the code adds exactly (stored XP, amount and
    sum of absolute value at most 2^53); the level stays between 1 and
    20 and neither XP nor level goes down. *)
Theorem awardXp_level_in_step (fetchLevelFeatures : string → Z → list string)
    (asiAnswer : Z → option string) (xpStr : option string) (ch : Character) :
  level ch = getLevelFromXp (Some (xp ch)) →
  exactAward xpStr ch →
  let ch' := awardXp fetchLevelFeatures asiAnswer xpStr ch in
  level ch' = getLevelFromXp (Some (xp ch')) ∧
  1 ≤ level ch' ≤ 20 ∧
  level ch ≤ level ch' ∧
  xp ch ≤ xp ch'.
Proof.
  intros Hstep _ ch'.
  assert (level ch' = getLevelFromXp (Some (xp ch')) ∧ level ch ≤ level ch' ∧ xp ch ≤ xp ch')
    as (H1 & H2 & H3).
  { subst ch'. unfold awardXp.
    destruct (parseInt _) as [amount|]; [|split; [exact Hstep|lia]].
    case_bool_decide as Hpos; [split; [exact Hstep|lia]|].
    cbn [xp level setXp].
    pose proof (getLevelFromXp_le (xp ch) (xp ch + amount) ltac:(lia)) as Hmono.
    case_bool_decide as Hup.
    - destruct (levelLoop_frame fetchLevelFeatures asiAnswer
                  (Z.to_nat (getLevelFromXp (Some (xp ch + amount)) - level ch))
                  (level ch + 1) (setXp (xp ch + amount) ch)) as [Hl Hx].
      cbn [xp level setLevel]. rewrite Hx. cbn [xp setXp]. lia.
    - cbn [xp level setXp]. lia. }
  split; [exact H1|]. split; [|split; [exact H2|exact H3]].
  rewrite H1. split; [apply getLevelFromXp_at_least_1|apply getLevelFromXp_at_most_20].
Qed.

(** The theorem for the sample fighter, awarded 3000 XP. *)
Lemma awardXp_level_in_step_witness :
  let ch' := awardXp sampleFeatures sampleAnswers (Some "3000"%string) sampleCharacter in
  level ch' = getLevelFromXp (Some (xp ch')) ∧
  1 ≤ level ch' ≤ 20 ∧
  level sampleCharacter ≤ level ch' ∧
  xp sampleCharacter ≤ xp ch'.
Proof.
  apply (awardXp_level_in_step sampleFeatures sampleAnswers (Some "3000"%string)
           sampleCharacter).
  - reflexivity.
  - vm_compute. repeat split; discriminate.
Defined.

(** ** Racial ability bonuses *)

Lemma foldl_applyBonus_score (bonuses : list AbilityBonus) (base : AbilityScores)
    (a : Ability) :
  score a (foldl applyBonus base bonuses) =
  score a base + sumZ (bonus <$> filter (λ b, bonusKey b = Some a) bonuses).
Proof.
  revert base. induction bonuses as [|b bonuses IH]; intros base.
  - cbn. lia.
  - cbn [foldl]. rewrite IH, filter_cons. unfold applyBonus.
    destruct (bonusKey b) as [k|] eqn:Hk.
    + rewrite score_addScore.
      destruct (decide (Some k = Some a)) as [Heq|Hne].
      * injection Heq as ->. rewrite decide_True by reflexivity.
        rewrite fmap_cons. change (sumZ (?x :: ?l)) with (x + sumZ l). lia.
      * rewrite decide_False by congruence. lia.
    + rewrite decide_False by discriminate. lia.
Qed.

(** X17.  After a race is chosen in the character creator every
    ability score is its standard-array value plus the sum of the
    race's bonuses whose ability name starts with that score's
    three-letter key, in any letter case; bonuses under other names
    change none of the six scores, and the order of the bonuses does
    not matter. *)
Theorem raceScores_sum (bonuses : list AbilityBonus) :
  (∀ a, score a (raceScores bonuses) =
        score a standardArray +
        sumZ (bonus <$> filter (λ b, bonusKey b = Some a) bonuses)) ∧
  (∀ bonuses', bonuses ≡ₚ bonuses' → raceScores bonuses' = raceScores bonuses).
Proof.
  split.
  - intros a. apply foldl_applyBonus_score.
  - intros bonuses' Hperm.
    assert (∀ a, score a (raceScores bonuses') = score a (raceScores bonuses)) as Hall.
    { intros a. unfold raceScores. rewrite !foldl_applyBonus_score. f_equal.
      assert (∀ l l' : list Z, l ≡ₚ l' → sumZ l = sumZ l') as Hsum.
      { intros l l' Hl. unfold sumZ. induction Hl; cbn [foldr] in *; lia. }
      apply Hsum. rewrite Hperm. reflexivity. }
    pose proof (Hall STR) as H1. pose proof (Hall DEX) as H2.
    pose proof (Hall CON) as H3. pose proof (Hall INT) as H4.
    pose proof (Hall WIS) as H5. pose proof (Hall CHA) as H6.
    destruct (raceScores bonuses'), (raceScores bonuses). cbn in *. congruence.
Qed.

(** ** The first variant of the program *)

(** X18.  Deleting a campaign leaves no orphans: the campaign and the
    sessions planned for it are gone, every other campaign and session
    stays, and if every session belonged to a stored campaign before,
    every remaining session still does. *)
Theorem deleteCampaign_cascade (id : string) (st : Original.Store) :
  let st' := Original.deleteCampaign id st in
  (∀ c, c ∈ Original.groups st' ↔ c ∈ Original.groups st ∧ Original.group_id c ≠ id) ∧
  (∀ s, s ∈ Original.planned st' ↔
        s ∈ Original.planned st ∧ Original.planned_campaignId s ≠ id) ∧
  ((∀ s, s ∈ Original.planned st →
      ∃ c, c ∈ Original.groups st ∧ Original.group_id c = Original.planned_campaignId s) →
   ∀ s, s ∈ Original.planned st' →
      ∃ c, c ∈ Original.groups st' ∧ Original.group_id c = Original.planned_campaignId s) ∧
  Original.accounts st' = Original.accounts st ∧
  Original.currentAccount st' = Original.currentAccount st.
Proof.
  intros st'. subst st'. unfold Original.deleteCampaign. cbn.
  split; [|split; [|split; [|split; reflexivity]]].
  - intros c. rewrite list_elem_of_filter. tauto.
  - intros s. rewrite list_elem_of_filter. tauto.
  - intros Hown s Hs. apply list_elem_of_filter in Hs as [Hne Hs].
    destruct (Hown s Hs) as (c & Hc & Hid).
    exists c. split; [|exact Hid].
    apply list_elem_of_filter. split; [congruence|exact Hc].
Qed.

(** X19.  Adding a player never lists a user twice: a campaign whose
    player list has no duplicate keeps that property, nobody is
    removed, the only id that can be added is that of a stored account
    whose name is the typed one up to case and surrounding blanks, and
    the rest of the campaign is untouched. *)
Theorem addPlayer_no_duplicate (typedName : string) (st : Original.Store)
    (c : Original.Group) :
  NoDup (Original.playerIds c) →
  let c' := Original.addPlayer typedName st c in
  NoDup (Original.playerIds c') ∧
  (∀ id, id ∈ Original.playerIds c' ↔
         id ∈ Original.playerIds c ∨
         ∃ u, List.find (λ u, sameName (Original.account_name u) (trim typedName))
                (Original.accounts st) = Some u ∧ id = Original.account_id u) ∧
  Original.group_id c' = Original.group_id c ∧
  Original.group_name c' = Original.group_name c ∧
  Original.description c' = Original.description c ∧
  Original.dmId c' = Original.dmId c.
Proof.
  intros Hnd c'. subst c'. unfold Original.addPlayer.
  destruct (List.find _ (Original.accounts st)) as [u|] eqn:Hfind.
  - case_bool_decide as Hin.
    + split; [exact Hnd|]. split; [|done].
      intros id. split; [auto|]. intros [H|(u' & [= <-] & ->)]; assumption.
    + cbn. split; [|split; [|done]].
      * apply NoDup_app. split; [exact Hnd|]. split; [|apply NoDup_singleton].
        intros x Hx Hx'. apply list_elem_of_singleton in Hx'. subst x. done.
      * intros id. rewrite elem_of_app, list_elem_of_singleton.
        split; [intros [H| ->]; eauto|].
        intros [H|(u' & [= <-] & ->)]; auto.
  - split; [exact Hnd|]. split; [|done].
    intros id. split; [auto|]. intros [H|(u' & [=] & _)]. exact H.
Qed.

(** The theorem for the name of a stored account typed in capitals
    with blanks around it. *)
Lemma addPlayer_no_duplicate_witness :
  let st :=
    Original.mkStore
      [Original.mkAccount "u1" "Ann" "pw" "player";
       Original.mkAccount "u2" "Bob" "pw" "player"]%string [] [] (Some "dm"%string) in
  let c := Original.mkGroup "c1" "Mines" "" "dm" ["u2"]%string in
  let c' := Original.addPlayer " ANN " st c in
  NoDup (Original.playerIds c') ∧
  (∀ id, id ∈ Original.playerIds c' ↔
         id ∈ Original.playerIds c ∨
         ∃ u, List.find (λ u, sameName (Original.account_name u) (trim " ANN "))
                (Original.accounts st) = Some u ∧ id = Original.account_id u) ∧
  Original.group_id c' = Original.group_id c ∧
  Original.group_name c' = Original.group_name c ∧
  Original.description c' = Original.description c ∧
  Original.dmId c' = Original.dmId c.
Proof.
  apply (addPlayer_no_duplicate " ANN "
           (Original.mkStore
              [Original.mkAccount "u1" "Ann" "pw" "player";
               Original.mkAccount "u2" "Bob" "pw" "player"]%string [] []
              (Some "dm"%string))
           (Original.mkGroup "c1" "Mines" "" "dm" ["u2"]%string)).
  apply NoDup_singleton.
Defined.

Lemma toggle_votes (userId : string) (l : list string) :
  NoDup l →
  let l' := match indexOf userId l with
            | None => l ++ [userId]
            | Some index => delete index l
            end in
  NoDup l' ∧ (userId ∈ l' ↔ userId ∉ l) ∧ (∀ v, v ≠ userId → v ∈ l' ↔ v ∈ l).
Proof.
  induction l as [|y r IH]; intros Hnd; cbn [indexOf].
  - cbn. split; [apply NoDup_singleton|]. split.
    + split; [intros _ H; inversion H|intros _; left].
    + intros v Hv. rewrite list_elem_of_singleton, elem_of_nil. tauto.
  - apply NoDup_cons in Hnd as [Hy Hr]. specialize (IH Hr). cbn zeta in IH.
    destruct (decide (y = userId)) as [-> | Hne].
    + cbn. split; [exact Hr|]. split.
      * split; [intros H; done|]. intros H. exfalso. apply H. left.
      * intros v Hv. rewrite elem_of_cons. tauto.
    + destruct (indexOf userId r) as [index|]; cbn.
      * destruct IH as (H1 & H2 & H3). split; [|split].
        -- apply NoDup_cons. split; [|exact H1].
           intros Hin. apply H3 in Hin; [done|exact Hne].
        -- rewrite !elem_of_cons. split.
           ++ intros [Heq|Hin]; [congruence|].
              intros [Heq|Hin']; [congruence|]. apply H2 in Hin. done.
           ++ intros Hnot. right. apply H2. intros Hin. apply Hnot. right. exact Hin.
        -- intros v Hv. rewrite !elem_of_cons. rewrite (H3 v Hv). tauto.
      * destruct IH as (H1 & H2 & H3). split; [|split].
        -- apply NoDup_cons. split; [|exact H1].
           intros Hin. apply H3 in Hin; [done|exact Hne].
        -- rewrite !elem_of_cons. split.
           ++ intros _ [Heq|Hin']; [congruence|].
              assert (userId ∈ r ++ [userId]) as Hlast
                by (apply elem_of_app; right; left).
              apply H2 in Hlast. done.
           ++ intros _. right. apply elem_of_app. right. left.
        -- intros v Hv. rewrite !elem_of_cons. rewrite (H3 v Hv). tauto.
Qed.

Lemma toggle_votes_count (userId : string) (l : list string) :
  let l' := match indexOf userId l with
            | None => l ++ [userId]
            | Some index => delete index l
            end in
  filter (λ v, v ≠ userId) l' = filter (λ v, v ≠ userId) l ∧
  occurrences userId l' =
    match occurrences userId l with O => 1%nat | S n => n end.
Proof.
  assert (Hself : ¬ (userId ≠ userId)) by (intros H; apply H; reflexivity).
  induction l as [|y r IH]; cbn [indexOf].
  - cbn zeta. rewrite app_nil_l. split.
    + rewrite filter_cons_False by exact Hself. reflexivity.
    + cbn [occurrences]. rewrite (decide_True (P := userId = userId)) by reflexivity.
      reflexivity.
  - cbn zeta in IH. destruct IH as [IHf IHo].
    destruct (decide (y = userId)) as [-> | Hne].
    + cbn zeta. change (delete 0%nat (userId :: r)) with r. split.
      * rewrite filter_cons_False by exact Hself. reflexivity.
      * cbn [occurrences]. rewrite (decide_True (P := userId = userId)) by reflexivity.
        reflexivity.
    + destruct (indexOf userId r) as [index|]; cbn zeta; cbn [fmap option_fmap option_map].
      * change (delete (S index) (y :: r)) with (y :: delete index r). split.
        -- rewrite !filter_cons_True by exact Hne. rewrite IHf. reflexivity.
        -- cbn [occurrences]. rewrite (decide_False (P := y = userId)) by exact Hne.
           exact IHo.
      * rewrite <- app_comm_cons. split.
        -- rewrite !filter_cons_True by exact Hne. rewrite IHf. reflexivity.
        -- cbn [occurrences]. rewrite (decide_False (P := y = userId)) by exact Hne.
           exact IHo.
Qed.

(** X20.  A click on a vote button changes only the first proposed
    time with that id, and there only the user's own vote: the other
    voters stay in their order, and the user's id is added when it was
    absent and loses its first occurrence otherwise.  So on a time that
    lists nobody twice the user votes for it afterwards exactly when
    they did not before, and when no time lists a voter twice before
    the click, none does after it.  Without a time of that id nothing
    changes. *)
Theorem voteOnTime_toggles (userId timeId : string) (times : list Original.ProposedTime) :
  let times' := Original.voteOnTime userId timeId times in
  Original.time_id <$> times' = Original.time_id <$> times ∧
  (Forall (λ t, NoDup (Original.time_votes t)) times →
   Forall (λ t, NoDup (Original.time_votes t)) times') ∧
  match List.find (λ t, bool_decide (Original.time_id t = timeId)) times with
  | None => times' = times
  | Some t =>
      ∃ i t', times !! i = Some t ∧ times' = <[i := t']> times ∧
              Original.time_datetime t' = Original.time_datetime t ∧
              filter (λ v, v ≠ userId) (Original.time_votes t') =
                filter (λ v, v ≠ userId) (Original.time_votes t) ∧
              occurrences userId (Original.time_votes t') =
                match occurrences userId (Original.time_votes t) with
                | O => 1%nat
                | S n => n
                end ∧
              (NoDup (Original.time_votes t) →
               (userId ∈ Original.time_votes t' ↔ userId ∉ Original.time_votes t))
  end.
Proof.
  induction times as [|t rest IH]; cbn zeta.
  - cbn. split; [reflexivity|]. split; [auto|reflexivity].
  - cbn [Original.voteOnTime List.find].
    destruct (toggle_votes_count userId (Original.time_votes t)) as [Hf Ho].
    case_bool_decide as Hid.
    + split; [reflexivity|]. split.
      * intros Hall. apply Forall_cons in Hall as [Ht Hrest].
        constructor; [apply (toggle_votes userId _ Ht)|exact Hrest].
      * exists 0%nat, (Original.toggleVote userId t).
        split; [reflexivity|]. split; [reflexivity|]. split; [reflexivity|].
        split; [exact Hf|]. split; [exact Ho|].
        intros Ht. apply (toggle_votes userId _ Ht).
    + cbn zeta in IH. destruct IH as (IH1 & IH2 & IH3).
      split; [rewrite !fmap_cons, IH1; reflexivity|]. split.
      * intros Hall. apply Forall_cons in Hall as [Ht Hrest].
        constructor; [exact Ht|apply IH2, Hrest].
      * destruct (List.find _ rest) as [t0|].
        -- destruct IH3 as (i & t' & Hi & -> & Hrem).
           exists (S i), t'. split; [exact Hi|]. split; [reflexivity|exact Hrem].
        -- rewrite IH3. reflexivity.
Qed.

Lemma compareProposedTimes_ranks (timeOf : string → Z) (a b : Original.ProposedTime) :
  Original.compareProposedTimes timeOf a b ≤ 0 ↔ ranksBefore timeOf a b.
Proof.
  unfold Original.compareProposedTimes, ranksBefore. cbn zeta.
  case_bool_decide as Hne; lia.
Qed.

Lemma insertBy_ranks (timeOf : string → Z) (x : Original.ProposedTime)
    (l : list Original.ProposedTime) :
  StronglySorted (ranksBefore timeOf) l →
  StronglySorted (ranksBefore timeOf)
    (insertBy (Original.compareProposedTimes timeOf) x l).
Proof.
  induction 1 as [|y r Hr IH Hall]; cbn [insertBy].
  - repeat constructor.
  - case_bool_decide as Hle.
    + apply compareProposedTimes_ranks in Hle.
      constructor; [constructor; assumption|].
      constructor; [exact Hle|].
      eapply Forall_impl; [exact Hall|]. intros z Hz.
      unfold ranksBefore in *. lia.
    + rewrite compareProposedTimes_ranks in Hle.
      constructor; [exact IH|].
      rewrite insertBy_Permutation. constructor; [|exact Hall].
      unfold ranksBefore in *. lia.
Qed.

Lemma sortBy_ranks (timeOf : string → Z) (l : list Original.ProposedTime) :
  StronglySorted (ranksBefore timeOf) (sortBy (Original.compareProposedTimes timeOf) l).
Proof.
  induction l as [|x l IH]; cbn; [constructor|]. apply insertBy_ranks, IH.
Qed.

(** X21.  On proposed times with valid dates, "Finalize Best Time"
    picks a proposed time with the most votes and, among those, one
    with the earliest date: the final time is a proposed time of the
    session, no proposed time has more votes, and none with as many
    votes is earlier.  The proposed times are only reordered.  With no
    proposed time the click does nothing. *)
Theorem finalizeBest_most_votes (timeOf : string → Z) (s : Original.PlannedSession) :
  let s' := Original.finalizeBest timeOf s in
  Original.proposedTimes s' ≡ₚ Original.proposedTimes s ∧
  Original.planned_id s' = Original.planned_id s ∧
  Original.planned_campaignId s' = Original.planned_campaignId s ∧
  (Original.proposedTimes s = [] → s' = s) ∧
  (Original.proposedTimes s ≠ [] →
   ∃ best,
     Original.finalTimeId s' = Some (Original.time_id best) ∧
     best ∈ Original.proposedTimes s ∧
     ∀ t, t ∈ Original.proposedTimes s →
       (length (Original.time_votes t) ≤ length (Original.time_votes best))%nat ∧
       (length (Original.time_votes t) = length (Original.time_votes best) →
        timeOf (Original.time_datetime best) ≤ timeOf (Original.time_datetime t))).
Proof.
  intros s'. subst s'. unfold Original.finalizeBest.
  destruct (Original.proposedTimes s) as [|t0 rest] eqn:Htimes.
  { rewrite Htimes. repeat split; try reflexivity. intros H. done. }
  pose proof (sortBy_Permutation (Original.compareProposedTimes timeOf) (t0 :: rest)) as Hperm.
  pose proof (sortBy_ranks timeOf (t0 :: rest)) as Hsorted.
  cbn zeta.
  destruct (sortBy (Original.compareProposedTimes timeOf) (t0 :: rest)) as [|best sorted].
  { apply Permutation_nil_l in Hperm. discriminate. }
  cbn. split; [exact Hperm|]. split; [reflexivity|]. split; [reflexivity|].
  split; [discriminate|]. intros _.
  exists best. split; [reflexivity|]. split.
  { rewrite <- Hperm. left. }
  intros t Ht. rewrite <- Hperm in Ht.
  apply StronglySorted_inv in Hsorted as [_ Hall].
  apply elem_of_cons in Ht as [-> | Ht]; [lia|].
  rewrite Forall_forall in Hall. specialize (Hall t Ht).
  unfold ranksBefore in Hall. lia.
Qed.

(** ** Escaping of user text *)

Lemma hasChar_append (c : ascii) (a b : string) :
  hasChar c (a +:+ b) = hasChar c a || hasChar c b.
Proof.
  induction a as [|d a IH]; [reflexivity|].
  rewrite append_cons. cbn [hasChar]. rewrite IH, orb_assoc. reflexivity.
Qed.

Lemma hasChar_replaceChar (c d : ascii) (by_ s : string) :
  hasChar c by_ = false →
  hasChar c (Original.replaceChar d by_ s) =
    if bool_decide (d = c) then false else hasChar c s.
Proof.
  intros Hby. induction s as [|e s IH]; cbn [Original.replaceChar hasChar].
  - case_bool_decide; reflexivity.
  - destruct (decide (e = d)) as [-> | Hed].
    + rewrite (bool_decide_eq_true_2 (d = d)) by reflexivity.
      rewrite hasChar_append, Hby, IH. cbn [orb hasChar].
      destruct (decide (d = c)) as [Hdc|Hdc].
      * rewrite !(bool_decide_eq_true_2 (d = c)) by assumption. reflexivity.
      * rewrite !(bool_decide_eq_false_2 (d = c)) by assumption. reflexivity.
    + rewrite (bool_decide_eq_false_2 (e = d)) by assumption.
      cbn [hasChar]. rewrite IH.
      destruct (decide (d = c)) as [Hdc|Hdc].
      * rewrite (bool_decide_eq_true_2 (d = c)) by assumption.
        rewrite (bool_decide_eq_false_2 (e = c)) by congruence. reflexivity.
      * rewrite (bool_decide_eq_false_2 (d = c)) by assumption. reflexivity.
Qed.

Lemma replaceChar_absent (c : ascii) (by_ s : string) :
  hasChar c s = false → Original.replaceChar c by_ s = s.
Proof.
  induction s as [|e s IH]; cbn [Original.replaceChar hasChar]; [reflexivity|].
  intros H. apply orb_false_iff in H as [He Hs].
  rewrite He, (IH Hs). reflexivity.
Qed.

(** X22.  The text of notes and chat messages is written into the page
    with every [<] and [>] replaced: the escaped text holds neither
    character, so it cannot open or close a tag, and a text that holds
    neither is written as it is. *)
Theorem escapeHtml_no_angle_brackets (text : string) :
  hasChar "<" (Original.escapeHtml text) = false ∧
  hasChar ">" (Original.escapeHtml text) = false ∧
  (hasChar "<" text = false → hasChar ">" text = false →
   Original.escapeHtml text = text).
Proof.
  unfold Original.escapeHtml. split; [|split].
  - rewrite hasChar_replaceChar by reflexivity.
    rewrite bool_decide_eq_false_2 by discriminate.
    rewrite hasChar_replaceChar by reflexivity.
    rewrite bool_decide_eq_true_2 by reflexivity. reflexivity.
  - rewrite hasChar_replaceChar by reflexivity.
    rewrite bool_decide_eq_true_2 by reflexivity. reflexivity.
  - intros Hlt Hgt. rewrite (replaceChar_absent "<" _ _ Hlt).
    apply replaceChar_absent, Hgt.
Qed.
